(** * Hypo: a toy ISA, its assembler and its virtual machine

    Shallow embedding of the Go packages [asm] (instruction table, lexer,
    symbol reader, binary writer, [Gen]) and [cpu] (loader, register and
    memory primitives, the opcode handlers, [Step] and [WriteTrace]) and
    of the loop of the [hypo] command, followed by the properties
    established about them.

    Conventions.
    - A Go [byte] is a [Z] in [0, 256), a [uint32] a [Z] in [0, 2^32); every
      place where Go truncates or wraps is written out with [byte_of] and
      [wrap32].
    - A Go [string] is a Rocq [string]: both are sequences of 8-bit bytes.
    - Go maps are stdpp [gmap]s, Go arrays and slices are lists read with
      [!!] and updated with [<[ _ := _ ]>]; an index outside the array is a
      Go run-time panic and is modelled as such. *)

From Stdlib Require Import ZArith Lia String Ascii.
From stdpp Require Import base tactics option list gmap strings.

Local Open Scope Z_scope.

(** ** Fixed-width integers and formatting helpers *)

Definition wrap32 (x : Z) : Z := x mod 2 ^ 32.
Definition byte_of (x : Z) : Z := x mod 256.

(** Little-endian layout of a [uint32], as [binary.LittleEndian] writes it
    and as [Writer.Write] patches it. *)
Definition le32 (v : Z) : list Z :=
  [byte_of v; byte_of (v ≫ 8); byte_of (v ≫ 16); byte_of (v ≫ 24)].

(** Decoding of four little-endian bytes into a [uint32]. *)
Definition le32_decode (b0 b1 b2 b3 : Z) : Z :=
  Z.lor (Z.lor (Z.lor (b3 ≪ 24) (b2 ≪ 16)) (b1 ≪ 8)) b0.

Definition digit_char (d : Z) : ascii :=
  match String.get (Z.to_nat d) "0123456789abcdef" with
  | Some a => a
  | None => "?"%char
  end.

Fixpoint digits_aux (fuel : nat) (base n : Z) (acc : string) : string :=
  match fuel with
  | O => acc
  | S fuel' =>
      let acc' := String (digit_char (n mod base)) acc in
      if decide (n / base = 0) then acc' else digits_aux fuel' base (n / base) acc'
  end.

(** Digits of a non-negative number in the given base, most significant
    first; ["0"] for zero. *)
Definition digits (base n : Z) : string :=
  digits_aux (S (Z.to_nat (Z.log2 n))) base n "".

Fixpoint zeros (k : nat) : string :=
  match k with
  | O => ""
  | S k' => String "0" (zeros k')
  end.

(** [fmt]'s [%0<w>x] on a non-negative value. *)
Definition hex_pad (w : nat) (n : Z) : string :=
  let s := digits 16 n in
  zeros (w - String.length s) +:+ s.

(** [fmt]'s [%d]. *)
Definition dec (n : Z) : string :=
  if decide (n < 0) then "-" +:+ digits 10 (- n) else digits 10 n.

(** A Go run-time panic: the two kinds that the packages can raise. *)
Inductive panic_kind :=
  | IndexOutOfRange (index len : Z)
  | SliceBoundsOutOfRange (low high : Z).

(** ** Go library functions used by the packages

    These follow the Go standard library: [unicode] on the Latin-1 range (a
    source byte [c] is always classified as [rune(c)]), [strconv.ParseInt]
    and [strconv.Atoi]. *)

Definition code (c : ascii) : Z := Z.of_N (N_of_ascii c).

Definition nl : string := String "010"%char "".

(** [unicode.IsSpace]: tab, line feed, vertical tab, form feed, carriage
    return, space, NEL (0x85) and NBSP (0xA0). *)
Definition IsSpace (c : ascii) : bool :=
  let n := code c in
  bool_decide (9 ≤ n ≤ 13 ∨ n = 32 ∨ n = 133 ∨ n = 160).

(** [unicode.IsGraphic]: letters, marks, numbers, punctuation, symbols and
    spaces; on Latin-1 everything but the two control ranges and the soft
    hyphen (0xAD). *)
Definition IsGraphic (c : ascii) : bool :=
  let n := code c in
  bool_decide (32 ≤ n ≤ 126 ∨ (160 ≤ n ≤ 255 ∧ n ≠ 173)).

(** [unicode.IsLetter] on Latin-1. *)
Definition IsLetter (c : ascii) : bool :=
  let n := code c in
  bool_decide (65 ≤ n ≤ 90 ∨ 97 ≤ n ≤ 122 ∨ n = 170 ∨ n = 181 ∨ n = 186
               ∨ 192 ≤ n ≤ 214 ∨ 216 ≤ n ≤ 246 ∨ 248 ≤ n ≤ 255).

(** Value of a digit byte as [strconv.ParseUint] reads it. *)
Definition digit_val (c : ascii) : option Z :=
  let n := code c in
  if decide (48 ≤ n ≤ 57) then Some (n - 48)
  else if decide (97 ≤ Z.lor n 32 ≤ 122) then Some (Z.lor n 32 - 97 + 10)
  else None.

(** The digit loop of [strconv.ParseUint] for an explicit base: [None] on
    a byte that is no digit of the base (syntax error) and as soon as the
    value exceeds [maxVal] (range error). *)
Fixpoint parse_digits (base maxVal n : Z) (s : string) : option Z :=
  match s with
  | EmptyString => Some n
  | String c s' =>
      match digit_val c with
      | None => None
      | Some d =>
          if decide (base ≤ d) then None
          else
            let n1 := n * base + d in
            if decide (n1 > maxVal) then None else parse_digits base maxVal n1 s'
      end
  end.

Definition ParseUint (s : string) (base bitSize : Z) : option Z :=
  if decide (s = EmptyString) then None
  else
    let bits := if decide (bitSize = 0) then 64 else bitSize in
    parse_digits base (2 ^ bits - 1) 0 s.

(** [strconv.ParseInt]: an optional sign, then [ParseUint]; the magnitude
    must fit the signed range of [bitSize] bits. [None] stands for any
    error. *)
Definition ParseInt (s : string) (base bitSize : Z) : option Z :=
  match s with
  | EmptyString => None
  | String c s' =>
      let neg := bool_decide (c = "-"%char) in
      let body := if decide (c = "+"%char ∨ c = "-"%char) then s' else s in
      match ParseUint body base bitSize with
      | None => None
      | Some un =>
          let bits := if decide (bitSize = 0) then 64 else bitSize in
          let cutoff := 2 ^ (bits - 1) in
          if negb neg && bool_decide (cutoff ≤ un) then None
          else if neg && bool_decide (un > cutoff) then None
          else Some (if neg then - un else un)
      end
  end.

(** [strconv.Atoi] is [ParseInt(s, 10, 0)] (with 64-bit [int]). *)
Definition Atoi (s : string) : option Z := ParseInt s 10 0.

(** [io.Writer]: a sink with state [W]; a write returns the byte count and
    the error, and the sink after the write. *)
Class IoWriter (W : Type) := io_write : list Z → W → Z * option string * W.

(** A sink that stores what it is given, like a healthy file or a
    [bytes.Buffer]. *)
#[global] Instance buffer_writer : IoWriter (list Z) :=
  λ p w, (Z.of_nat (length p), None, w ++ p).

(** A sink on which every write fails, like a closed file. *)
Inductive closed_file := ClosedFile.
#[global] Instance closed_writer : IoWriter closed_file :=
  λ p w, (0, Some "file already closed"%string, w).

(** ** Package asm: opcodes and header *)

Module Asm.

Definition OpNop : Z := 0.
Definition OpLd : Z := 1.
Definition OpLr : Z := 2.
Definition OpSt : Z := 3.
Definition OpAdd : Z := 4.
Definition OpSub : Z := 5.
Definition OpAddi : Z := 6.
Definition OpSubi : Z := 7.
Definition OpP : Z := 8.
Definition OpBeq : Z := 9.
Definition OpBne : Z := 10.
Definition OpBgt : Z := 11.
Definition OpBlt : Z := 12.
Definition OpJ : Z := 13.
Definition OpJr : Z := 14.
Definition OpCall : Z := 15.
Definition OpExit : Z := 16.

(** Symbol kinds; [-1] marks a symbol that [Read] has not classified. *)
Definition Id : Z := 0.
Definition Label : Z := 1.
Definition Reg : Z := 2.
Definition Addr : Z := 3.
Definition Eof : Z := 4.

Definition ErrThreshold : Z := 8.

Record Symbol := mkSymbol {
  Typ : Z;
  Val : string;
  Line : Z;
}.

(** The zero value [Symbol{}]. *)
Definition Symbol0 : Symbol := mkSymbol 0 "" 0.

Definition set_Typ (t : Z) (s : Symbol) : Symbol := mkSymbol t (Val s) (Line s).

Record Instruction := mkInstruction {
  Op : Z;
  Params : list Z;
}.

Definition Hdr : list Z := [72; 89; 80; 0].

Definition syms (c : ascii) : option Z :=
  if decide (c = "%"%char) then Some Reg
  else if decide (c = "$"%char) then Some Addr
  else None.

Definition inst : gmap string Instruction :=
  list_to_map [
    ("nop"%string, mkInstruction OpNop []);
    ("ld"%string, mkInstruction OpLd [Reg; Reg]);
    ("lr"%string, mkInstruction OpLr [Addr; Reg]);
    ("st"%string, mkInstruction OpSt [Reg; Reg]);
    ("add"%string, mkInstruction OpAdd [Reg; Reg; Reg]);
    ("sub"%string, mkInstruction OpSub [Reg; Reg; Reg]);
    ("addi"%string, mkInstruction OpAddi [Reg; Addr; Reg]);
    ("subi"%string, mkInstruction OpSubi [Reg; Addr; Reg]);
    ("p"%string, mkInstruction OpP [Reg]);
    ("beq"%string, mkInstruction OpBeq [Reg; Reg; Addr]);
    ("bne"%string, mkInstruction OpBne [Reg; Reg; Addr]);
    ("bgt"%string, mkInstruction OpBgt [Reg; Reg; Addr]);
    ("blt"%string, mkInstruction OpBlt [Reg; Reg; Addr]);
    ("j"%string, mkInstruction OpJ [Addr]);
    ("jr"%string, mkInstruction OpJr [Reg]);
    ("call"%string, mkInstruction OpCall [Addr]);
    ("exit"%string, mkInstruction OpExit [])
  ].

(** *** Reader: the symbol consumer *)

Record Reader := mkReader {
  sym : list Symbol;
  nsym : nat;
}.

Definition NewReader (s : list Symbol) : Reader := mkReader s 0.

Definition Reader_Read (r : Reader) : Symbol * option string * Reader :=
  match sym r !! nsym r with
  | None => (Symbol0, Some "bad argument count"%string, r)
  | Some s => (s, None, mkReader (sym r) (S (nsym r)))
  end.

Definition Expect (t : Z) (r : Reader) : Symbol * option string * Reader :=
  match Reader_Read r with
  | (s, Some e, r') => (s, Some e, r')
  | (s, None, r') =>
      if decide (t = Id) then
        if decide (Typ s ≠ t ∧ Typ s ≠ Label)
        then (s, Some ("expected identifier got '" +:+ Val s +:+ "'"), r')
        else (s, None, r')
      else
        if decide (Typ s ≠ t ∧ Typ s ≠ Id)
        then
          let tval := if decide (t = Addr) then "immediate"%string else "register"%string in
          (s, Some ("expected " +:+ tval +:+ " got '" +:+ Val s +:+ "'"), r')
        else (s, None, r')
  end.

(** *** Writer: the binary emitter *)

Record Writer := mkWriter {
  buf : list Z;
  pc : Z;
  lab : gmap string Z;
  addr : gmap Z string;
}.

Definition NewWriter : Writer := mkWriter [] 0 ∅ ∅.

Definition WriteByte (b : Z) (w : Writer) : Writer :=
  mkWriter (buf w ++ [b]) (pc w) (lab w) (addr w).

Definition incr_pc (w : Writer) : Writer :=
  mkWriter (buf w) (wrap32 (pc w + 1)) (lab w) (addr w).

Definition WriteAddr (a : Z) (w : Writer) : Writer :=
  mkWriter (buf w ++ le32 a) (wrap32 (pc w + 4)) (lab w) (addr w).

Definition WriteSymbol (s : Symbol) (w : Writer) : Writer * option string :=
  if decide (Typ s = Id) then
    match inst !! Val s with
    | Some f => (incr_pc (WriteByte (Op f) w), None)
    | None =>
        (WriteAddr 0 (mkWriter (buf w) (pc w) (lab w) (<[pc w := Val s]> (addr w))), None)
    end
  else if decide (Typ s = Label) then
    match lab w !! Val s with
    | Some _ => (w, Some ("redefining label '" +:+ Val s +:+ "'"))
    | None => (mkWriter (buf w) (pc w) (<[Val s := pc w]> (lab w)) (addr w), None)
    end
  else if decide (Typ s = Reg) then
    match Atoi (Val s) with
    | None => (w, Some ("bad register '" +:+ Val s +:+ "'"))
    | Some r => (incr_pc (WriteByte (byte_of r) w), None)
    end
  else if decide (Typ s = Addr) then
    match ParseInt (Val s) 16 32 with
    | None => (w, Some ("bad address '" +:+ Val s +:+ "'"))
    | Some a => (WriteAddr (wrap32 a) w, None)
    end
  else (w, None).

(** The order in which a [range] over the patch map visits its entries:
    Go leaves it unspecified, so it is a parameter, known only to visit
    every entry once. *)
Class RangeOrder := {
  range_order : gmap Z string → list (Z * string);
  range_order_perm : ∀ m, range_order m ≡ₚ map_to_list m;
}.

#[global] Program Instance map_to_list_order : RangeOrder :=
  {| range_order := map_to_list |}.
Next Obligation. reflexivity. Qed.

(** [b[i] = v] on the slice [b]. *)
Definition store (i v : Z) (b : list Z) : list Z + panic_kind :=
  if decide (i < Z.of_nat (length b)) then inl (<[Z.to_nat i := v]> b)
  else inr (IndexOutOfRange i (Z.of_nat (length b))).

(** The four stores of one patch; the indices are [uint32] sums. *)
Definition patch (i l : Z) (b : list Z) : list Z + panic_kind :=
  match store i (byte_of l) b with
  | inr p => inr p
  | inl b1 =>
      match store (wrap32 (i + 1)) (byte_of (l ≫ 8)) b1 with
      | inr p => inr p
      | inl b2 =>
          match store (wrap32 (i + 2)) (byte_of (l ≫ 16)) b2 with
          | inr p => inr p
          | inl b3 => store (wrap32 (i + 3)) (byte_of (l ≫ 24)) b3
          end
      end
  end.

(** What the patch loop of [Write] ends in. *)
Inductive patched :=
  | Patched (b : list Z)
  | NoSuchLabel (name : string)
  | PatchPanic (p : panic_kind).

Fixpoint patch_all (labels : gmap string Z) (todo : list (Z * string)) (b : list Z) : patched :=
  match todo with
  | [] => Patched b
  | (i, j) :: todo' =>
      match labels !! j with
      | None => NoSuchLabel j
      | Some l =>
          match patch i l b with
          | inr p => PatchPanic p
          | inl b' => patch_all labels todo' b'
          end
      end
  end.

(** [Write] returns the count and error of the last write it attempted and
    the sink after it, or panics. *)
Definition Write `{RangeOrder} `{IoWriter W} (w : Writer) (f : W)
    : (Z * option string * W) + panic_kind :=
  match patch_all (lab w) (range_order (addr w)) (buf w) with
  | PatchPanic p => inr p
  | NoSuchLabel j => inl (-1, Some (j +:+ ": no such label"), f)
  | Patched b =>
      match io_write Hdr f with
      | (n, Some e, f') => inl (n, Some e, f')
      | (_, None, f') => inl (io_write b f')
      end
  end.

(** *** Lexer

    The [bufio.Reader] over the source is the string of bytes not yet
    read; the package variable [lc] is threaded through. *)

(** [ReadToken]: [b] is the token read so far. The result is the token and
    the error ([io.EOF] when the input ends before a space byte). *)
Fixpoint ReadToken (b : string) (lc : Z) (r : string) : string * option string * Z * string :=
  match r with
  | EmptyString => (EmptyString, Some "EOF"%string, lc, EmptyString)
  | String c r' =>
      let lc' := if decide (c = "010"%char) then lc + 1 else lc in
      if IsSpace c then (b, None, lc', r')
      else ReadToken (b +:+ String c EmptyString) lc' r'
  end.

(** [r.ReadBytes('\n')]: the input after the next line feed. *)
Fixpoint skip_line (r : string) : string :=
  match r with
  | EmptyString => EmptyString
  | String c r' => if decide (c = "010"%char) then r' else skip_line r'
  end.

(** [s[len(s)-1] == ':'], a panic on the empty string. *)
Definition last_is_colon (s : string) : bool + panic_kind :=
  match String.get (String.length s - 1) s with
  | Some c => inl (bool_decide (c = ":"%char))
  | None => inr (IndexOutOfRange (-1) 0)
  end.

(** [strings.TrimSuffix(s, ":")] *)
Fixpoint trim_colon (s : string) : string :=
  match s with
  | EmptyString => EmptyString
  | String c EmptyString => if decide (c = ":"%char) then EmptyString else s
  | String c s' => String c (trim_colon s')
  end.

(** What one call of [Read] produces: the symbol, the error, the line
    counter and the input left. *)
Definition read_result : Type := Symbol * option string * Z * string.

Fixpoint Read_loop (s : Symbol) (lc : Z) (r : string) : read_result + panic_kind :=
  match r with
  | EmptyString => inl (set_Typ Eof s, None, lc, EmptyString)
  | String c r' =>
      let lc1 := if decide (c = "010"%char) then lc + 1 else lc in
      if decide (c = "#"%char) then inl (s, None, lc1 + 1, skip_line r')
      else if IsSpace c then Read_loop s lc1 r'
      else if negb (IsGraphic c)
      then inl (s, Some ("invalid character '" +:+ hex_pad 2 (code c) +:+ "'"), lc1, r')
      else
        match syms c with
        | Some t =>
            match ReadToken EmptyString lc1 r' with
            | (_, Some _, lc2, r2) => inl (set_Typ Eof s, None, lc2, r2)
            | (tok, None, lc2, r2) => inl (mkSymbol t tok lc2, None, lc2, r2)
            end
        | None =>
            if bool_decide (Typ s = -1) && IsLetter c then
              match ReadToken EmptyString lc1 r with
              | (_, Some _, lc2, r2) => inl (set_Typ Eof s, None, lc2, r2)
              | (tok, None, lc2, r2) =>
                  match last_is_colon tok with
                  | inr p => inr p
                  | inl true => inl (mkSymbol Label (trim_colon tok) lc2, None, lc2 + 1, r2)
                  | inl false => inl (mkSymbol Id tok lc2, None, lc2, r2)
                  end
              end
            else Read_loop s lc1 r'
        end
  end.

Definition Read (lc : Z) (r : string) : read_result + panic_kind :=
  Read_loop (mkSymbol (-1) "" 0) lc r.

(** *** Gen *)

(** The error count and the strings handed to [fmt.Fprintf(e, ...)], oldest
    first. *)
Record Diag := mkDiag {
  errc : Z;
  elog : list string;
}.

(** The closure [werr]. *)
Definition werr (s : Symbol) (err : string) (d : Diag) : Diag :=
  mkDiag (errc d + 1)
         (if decide (errc d ≤ ErrThreshold)
          then elog d ++ [dec (Line s) +:+ ": " +:+ err +:+ nl]
          else elog d).

(** How a run of [Gen], or of one of its loops, ends. *)
Inductive outcome (A : Type) :=
  | Returns (a : A)
  | Panics (p : panic_kind)
  | OutOfFuel.
Arguments Returns {A} a.
Arguments Panics {A} p.
Arguments OutOfFuel {A}.

(** State of the first loop: symbols collected, diagnostics, line counter,
    input left. [inr] is the early return with [invalid file]. *)
Record Lexed := mkLexed {
  lx_sym : list Symbol;
  lx_diag : Diag;
  lx_lc : Z;
}.

Fixpoint lex_loop (fuel : nat) (acc : list Symbol) (d : Diag) (lc : Z) (r : string)
    : outcome (Lexed * bool) :=
  match fuel with
  | O => OutOfFuel
  | S fuel' =>
      match Read lc r with
      | inr p => Panics p
      | inl (s, e, lc', r') =>
          let d' := match e with Some m => werr s m d | None => d end in
          if decide (errc d' > ErrThreshold) then Returns (mkLexed acc d' lc', false)
          else
            let acc' := if decide (Typ s ≠ -1) then acc ++ [s] else acc in
            if decide (Typ s = Eof) then Returns (mkLexed acc' d' lc', true)
            else lex_loop fuel' acc' d' lc' r'
      end
  end.

(** The operand loop [for _, t := range f.Params]. *)
Fixpoint params_loop (ps : list Z) (rd : Reader) (w : Writer) (d : Diag)
    : Reader * Writer * Diag :=
  match ps with
  | [] => (rd, w, d)
  | t :: ps' =>
      match Expect t rd with
      | (s, Some e, rd') => params_loop ps' rd' w (werr s e d)
      | (s, None, rd') =>
          match WriteSymbol s w with
          | (w', Some e) => params_loop ps' rd' w' (werr s e d)
          | (w', None) => params_loop ps' rd' w' d
          end
      end
  end.

(** The second loop, one symbol of lookahead at statement position. *)
Fixpoint asm_loop (fuel : nat) (rd : Reader) (w : Writer) (d : Diag)
    : outcome (Writer * Diag) :=
  match fuel with
  | O => OutOfFuel
  | S fuel' =>
      match Expect Id rd with
      | (s, e, rd') =>
          if decide (Typ s = Eof) then Returns (w, d)
          else
            match e with
            | Some m => asm_loop fuel' rd' w (werr s m d)
            | None =>
                if decide (Typ s ≠ Label) then
                  match inst !! Val s with
                  | None =>
                      asm_loop fuel' rd' w (werr s ("bad instruction '" +:+ Val s +:+ "'") d)
                  | Some f =>
                      let w1 := fst (WriteSymbol s w) in
                      match params_loop (Params f) rd' w1 d with
                      | (rd2, w2, d2) => asm_loop fuel' rd2 w2 d2
                      end
                  end
                else
                  match WriteSymbol s w with
                  | (w', Some m) => asm_loop fuel' rd' w' (werr s m d)
                  | (w', None) => asm_loop fuel' rd' w' d
                  end
            end
      end
  end.

(** What [Gen] leaves behind: the returned symbols and error, the strings
    printed to [e], the sink, and the line counter. *)
Record Generated (W : Type) := mkGenerated {
  g_sym : list Symbol;
  g_err : option string;
  g_elog : list string;
  g_sink : W;
  g_lc : Z;
}.
Arguments mkGenerated {W}.
Arguments g_sym {W}.
Arguments g_err {W}.
Arguments g_elog {W}.
Arguments g_sink {W}.
Arguments g_lc {W}.

(** [Gen] on the source bytes [r], the sink [f] and the line counter [lc]
    the package variable holds at the call. *)
Definition Gen `{RangeOrder} `{IoWriter W} (fuel : nat) (lc : Z) (r : string) (f : W)
    : outcome (Generated W) :=
  match lex_loop fuel [] (mkDiag 0 []) lc r with
  | Panics p => Panics p
  | OutOfFuel => OutOfFuel
  | Returns (lx, false) =>
      Returns (mkGenerated (lx_sym lx) (Some "invalid file"%string) (elog (lx_diag lx)) f (lx_lc lx))
  | Returns (lx, true) =>
      match asm_loop fuel (NewReader (lx_sym lx)) NewWriter (lx_diag lx) with
      | Panics p => Panics p
      | OutOfFuel => OutOfFuel
      | Returns (w, d) =>
          if decide (errc d > ErrThreshold) then
            Returns (mkGenerated (lx_sym lx)
                       (Some (dec (errc d) +:+ " errors (" +:+ dec ErrThreshold +:+ " shown)"))
                       (elog d) f (lx_lc lx))
          else if decide (errc d > 0) then
            Returns (mkGenerated (lx_sym lx) (Some (dec (errc d) +:+ " errors")) (elog d) f (lx_lc lx))
          else
            match Write w f with
            | inr p => Panics p
            | inl (_, Some e, f') =>
                Returns (mkGenerated (lx_sym lx) None (elog d ++ [e +:+ nl]) f' (lx_lc lx))
            | inl (_, None, f') =>
                Returns (mkGenerated (lx_sym lx) None (elog d) f' (lx_lc lx))
            end
      end
  end.

End Asm.

(** ** Package cpu *)

Module Cpu.

(** The [Cpu] struct. [buf_s] and [buf_i] are the bytes and the reading
    index of the [bytes.Reader]; [stdout] records the code points handed to
    [fmt.Print], oldest first. *)
Record Cpu := mkCpu {
  reg : list Z;
  mem : list Z;
  pc : Z;
  flags : Z;
  err : option string;
  buf_s : list Z;
  buf_i : Z;
  stdout : list Z;
}.

Definition set_reg (v : list Z) (c : Cpu) : Cpu :=
  mkCpu v (mem c) (pc c) (flags c) (err c) (buf_s c) (buf_i c) (stdout c).
Definition set_mem (v : list Z) (c : Cpu) : Cpu :=
  mkCpu (reg c) v (pc c) (flags c) (err c) (buf_s c) (buf_i c) (stdout c).
Definition set_pc (v : Z) (c : Cpu) : Cpu :=
  mkCpu (reg c) (mem c) v (flags c) (err c) (buf_s c) (buf_i c) (stdout c).
Definition set_flags (v : Z) (c : Cpu) : Cpu :=
  mkCpu (reg c) (mem c) (pc c) v (err c) (buf_s c) (buf_i c) (stdout c).
Definition set_err (v : option string) (c : Cpu) : Cpu :=
  mkCpu (reg c) (mem c) (pc c) (flags c) v (buf_s c) (buf_i c) (stdout c).
Definition set_buf_i (v : Z) (c : Cpu) : Cpu :=
  mkCpu (reg c) (mem c) (pc c) (flags c) (err c) (buf_s c) v (stdout c).
Definition set_stdout (v : list Z) (c : Cpu) : Cpu :=
  mkCpu (reg c) (mem c) (pc c) (flags c) (err c) (buf_s c) (buf_i c) v.

(** [New]: the reader is created over [buf] and one [Read] of four bytes is
    attempted. [bytes.Reader.Read] fails only when no byte is left; a
    shorter read leaves the tail of [hdr] zero. *)
Definition New (buf : list Z) : Cpu * option string :=
  let c := mkCpu (replicate 8 0) (replicate (Z.to_nat 8192) 0) 0 0 None buf 0 [] in
  if decide (length buf = 0%nat) then (c, Some "could not read header"%string)
  else
    let got := take 4 buf in
    let hdr := got ++ replicate (4 - length got) 0 in
    let c' := set_buf_i (Z.of_nat (length got)) c in
    if decide (hdr = Asm.Hdr) then (c', None) else (c', Some "bad header"%string).

(** Computations over the machine that either finish with a value and a new
    machine, or panic. *)
Inductive result (A : Type) :=
  | Done (a : A) (c : Cpu)
  | Panicked (p : panic_kind).
Arguments Done {A} a c.
Arguments Panicked {A} p.

Definition M (A : Type) : Type := Cpu → result A.

#[global] Instance M_ret : MRet M := λ A a c, Done a c.
#[global] Instance M_bind : MBind M := λ A B f m c,
  match m c with
  | Done a c' => f a c'
  | Panicked p => Panicked p
  end.

Definition get : M Cpu := λ c, Done c c.
Definition modify (f : Cpu → Cpu) : M unit := λ c, Done () (f c).
Definition panic {A} (p : panic_kind) : M A := λ _, Panicked p.

(** [c.read(ins)] for a value of [n] bytes: [binary.Read] does an
    [io.ReadFull]; the bytes are returned for the caller to decode. *)
Definition read (n : nat) : M (list Z) := λ c,
  if decide (Z.of_nat (length (buf_s c)) ≤ buf_i c)
  then Done [] (set_err (Some "bad read"%string) c)
  else
    let bs := take n (drop (Z.to_nat (buf_i c)) (buf_s c)) in
    let c' := set_buf_i (buf_i c + Z.of_nat (length bs)) c in
    if decide (length bs = n) then Done bs c'
    else Done bs (set_err (Some "bad read"%string) c').

Definition checkReg (r : Z) : M (option string) :=
  c ← get;
  (if decide (r > Z.of_nat (length (reg c)))
   then modify (λ c, set_flags (Z.lor (flags c) 1)
                       (set_err (Some ("invalid register " +:+ hex_pad 2 r)) c))
   else mret ());;
  c ← get;
  mret (err c).

Definition readReg (r : Z) : M Z :=
  e ← checkReg r;
  match e with
  | None =>
      c ← get;
      match reg c !! Z.to_nat r with
      | Some v => mret v
      | None => panic (IndexOutOfRange r (Z.of_nat (length (reg c))))
      end
  | Some _ => mret 0
  end.

Definition writeReg (r i : Z) : M unit :=
  e ← checkReg r;
  match e with
  | None =>
      c ← get;
      if decide (r < Z.of_nat (length (reg c)))
      then modify (set_reg (<[Z.to_nat r := i]> (reg c)))
      else panic (IndexOutOfRange r (Z.of_nat (length (reg c))))
  | Some _ => mret ()
  end.

(** [readImm]: the slice [c.mem[addr:4]] runs from [addr] to 4, so it
    panics for [addr > 4] and is shorter than four bytes for [addr > 0]. *)
Definition readImm (addr : Z) : M (Z * option string) :=
  c ← get;
  if decide (addr > Z.of_nat (length (mem c)))
  then mret (0, Some ("illegal read " +:+ hex_pad 8 addr))
  else if decide (addr > 4) then panic (SliceBoundsOutOfRange addr 4)
  else
    let i := take (Z.to_nat (4 - addr)) (drop (Z.to_nat addr) (mem c)) in
    match i !! 3%nat, i !! 2%nat, i !! 1%nat, i !! 0%nat with
    | Some b3, Some b2, Some b1, Some b0 => mret (le32_decode b0 b1 b2 b3, None)
    | _, _, _, _ => panic (IndexOutOfRange 3 (Z.of_nat (length i)))
    end.

(** [c.mem[i] = v] *)
Definition storeByte (i v : Z) : M unit :=
  c ← get;
  if decide (i < Z.of_nat (length (mem c)))
  then modify (set_mem (<[Z.to_nat i := v]> (mem c)))
  else panic (IndexOutOfRange i (Z.of_nat (length (mem c)))).

Definition writeImm (addr imm : Z) : M (option string) :=
  c ← get;
  if decide (addr > Z.of_nat (length (mem c)))
  then mret (Some ("illegal write " +:+ hex_pad 8 imm +:+ " (at " +:+ hex_pad 8 addr +:+ ")"))
  else
    storeByte addr (byte_of imm);;
    storeByte (wrap32 (addr + 1)) (byte_of (imm ≫ 8));;
    storeByte (wrap32 (addr + 2)) (byte_of (imm ≫ 16));;
    storeByte (wrap32 (addr + 3)) (byte_of (imm ≫ 24));;
    mret None.

(** [jump]: [Seek] to the 32-bit sum [pc + len(Hdr)] from the start. The
    offset is never negative, so [bytes.Reader.Seek] cannot fail. *)
Definition jump (target : Z) : M (option string) :=
  modify (set_buf_i (wrap32 (target + Z.of_nat (length Asm.Hdr))));;
  modify (set_pc target);;
  mret None.

(** Handlers read their operand bytes and return at once, with 0, when the
    read left [err] set. *)
Definition with_operands (n : nat) (k : list Z → M Z) : M Z :=
  bs ← read n;
  c ← get;
  match err c with
  | Some _ => mret 0
  | None => k bs
  end.

Definition branch (taken : Z → Z → bool) : M Z :=
  with_operands 6 (λ bs,
    match bs with
    | [r1; r2; i0; i1; i2; i3] =>
        a ← readReg r1;
        b ← readReg r2;
        if taken a b then jump (le32_decode i0 i1 i2 i3);; mret 0 else mret 6
    | _ => mret 0
    end).

Definition ops (op : Z) : option (M Z) :=
  if decide (op = Asm.OpNop) then Some (mret 0)
  else if decide (op = Asm.OpLd) then Some (
    with_operands 2 (λ bs,
      match bs with
      | [r1; r2] =>
          a ← readReg r2;
          '(i, e) ← readImm a;
          modify (set_err e);;
          (if e is Some _ then writeReg r1 i else mret ());;
          mret 2
      | _ => mret 0
      end))
  else if decide (op = Asm.OpLr) then Some (
    with_operands 5 (λ bs,
      match bs with
      | [i0; i1; i2; i3; r] => writeReg r (le32_decode i0 i1 i2 i3);; mret 5
      | _ => mret 0
      end))
  else if decide (op = Asm.OpSt) then Some (
    with_operands 2 (λ bs,
      match bs with
      | [r1; r2] =>
          a ← readReg r1;
          v ← readReg r2;
          e ← writeImm a v;
          modify (set_err e);;
          mret 2
      | _ => mret 0
      end))
  else if decide (op = Asm.OpAdd) then Some (
    with_operands 3 (λ bs,
      match bs with
      | [r1; r2; r3] =>
          a ← readReg r1;
          b ← readReg r2;
          writeReg r3 (wrap32 (a + b));;
          mret 3
      | _ => mret 0
      end))
  else if decide (op = Asm.OpSub) then Some (
    with_operands 3 (λ bs,
      match bs with
      | [r1; r2; r3] =>
          a ← readReg r1;
          b ← readReg r2;
          writeReg r3 (wrap32 (a - b));;
          mret 3
      | _ => mret 0
      end))
  else if decide (op = Asm.OpAddi) then Some (
    with_operands 6 (λ bs,
      match bs with
      | [r1; i0; i1; i2; i3; r2] =>
          a ← readReg r1;
          writeReg r2 (wrap32 (a + le32_decode i0 i1 i2 i3));;
          mret 6
      | _ => mret 0
      end))
  else if decide (op = Asm.OpSubi) then Some (
    with_operands 6 (λ bs,
      match bs with
      | [r1; i0; i1; i2; i3; r2] =>
          a ← readReg r1;
          writeReg r2 (wrap32 (a - le32_decode i0 i1 i2 i3));;
          mret 6
      | _ => mret 0
      end))
  else if decide (op = Asm.OpP) then Some (
    with_operands 1 (λ bs,
      match bs with
      | [r] =>
          c ← get;
          match reg c !! Z.to_nat r with
          | Some v => modify (set_stdout (stdout c ++ [v]));; mret 1
          | None => panic (IndexOutOfRange r (Z.of_nat (length (reg c))))
          end
      | _ => mret 0
      end))
  else if decide (op = Asm.OpBeq) then Some (branch (λ a b, bool_decide (a = b)))
  else if decide (op = Asm.OpBne) then Some (branch (λ a b, bool_decide (a ≠ b)))
  else if decide (op = Asm.OpBgt) then Some (branch (λ a b, bool_decide (a > b)))
  else if decide (op = Asm.OpBlt) then Some (branch (λ a b, bool_decide (a < b)))
  else if decide (op = Asm.OpJ) then Some (
    with_operands 4 (λ bs,
      match bs with
      | [i0; i1; i2; i3] => jump (le32_decode i0 i1 i2 i3);; mret 0
      | _ => mret 0
      end))
  else if decide (op = Asm.OpJr) then Some (
    with_operands 1 (λ bs,
      match bs with
      | [r] => a ← readReg r; jump a;; mret 0
      | _ => mret 0
      end))
  else if decide (op = Asm.OpCall) then Some (
    with_operands 4 (λ bs,
      match bs with
      | [i0; i1; i2; i3] =>
          c ← get;
          writeReg 3 (wrap32 (pc c + 4));;
          jump (le32_decode i0 i1 i2 i3);;
          mret 0
      | _ => mret 0
      end))
  else if decide (op = Asm.OpExit) then Some (
    modify (λ c, set_flags (Z.lor (flags c) 1) c);; mret 0)
  else None.

Definition State (c : Cpu) : bool := bool_decide (flags c ≠ 1).

(** [Step] returns the error of the step, [None] for Go's [nil]. *)
Definition Step : M (option string) :=
  bs ← read 1;
  c ← get;
  match err c with
  | Some e => mret (Some e)
  | None =>
      let op := default 0 (head bs) in
      modify (λ c, set_pc (wrap32 (pc c + 1)) c);;
      match ops op with
      | None =>
          modify (λ c, set_pc (wrap32 (pc c - 1)) c);;
          mret (Some ("invalid opcode: " +:+ hex_pad 2 op))
      | Some f =>
          n ← f;
          modify (λ c, set_pc (wrap32 (pc c + n)) c);;
          c ← get;
          mret (err c)
      end
  end.

(** [n] successive calls of [Step] that all return [nil]; [None] as soon
    as one of them returns an error or panics. *)
Fixpoint steps (n : nat) (c : Cpu) : option Cpu :=
  match n with
  | O => Some c
  | S n' =>
      match Step c with
      | Done None c' => steps n' c'
      | _ => None
      end
  end.

(** [WriteTrace]: the strings handed to [fmt.Fprintln] and [fmt.Fprintf],
    oldest first; what the writer returns is ignored by the code. *)
Fixpoint reg_trace (i : Z) (l : list Z) : list string :=
  match l with
  | [] => []
  | j :: l' => (hex_pad 2 i +:+ ": " +:+ hex_pad 8 j +:+ nl) :: reg_trace (i + 1) l'
  end.

(** The loop over [c.mem], left at the first index above [0xff]. *)
Fixpoint mem_trace (i : Z) (l : list Z) : list string :=
  match l with
  | [] => []
  | j :: l' =>
      if decide (i > 255) then []
      else (if decide (i > 0 ∧ i mod 16 = 0) then [nl] else [])
           ++ (hex_pad 2 j +:+ " ") :: mem_trace (i + 1) l'
  end.

Definition WriteTrace (c : Cpu) : list string :=
  ["register trace:" +:+ nl] ++ reg_trace 0 (reg c)
  ++ ["pc: " +:+ hex_pad 8 (pc c) +:+ nl; "memory trace:" +:+ nl]
  ++ mem_trace 0 (mem c) ++ [nl].

End Cpu.

(** ** Command hypo: the loop of [main] *)

Module Hypo.

Import Cpu.

(** [for c.State() { if err := c.Step(); err != nil { ...; break } }]: the
    machine the loop ends with and the strings it printed itself, the
    fatal message and the trace, or nothing when the machine halted. *)
Fixpoint run (fuel : nat) (c : Cpu) : Asm.outcome (Cpu * list string) :=
  match fuel with
  | O => Asm.OutOfFuel
  | S fuel' =>
      if State c then
        match Step c with
        | Panicked p => Asm.Panics p
        | Done (Some e) c' =>
            Asm.Returns (c', ("fatal: " +:+ e +:+ nl +:+ nl) :: WriteTrace c')
        | Done None c' => run fuel' c'
        end
      else Asm.Returns (c, [])
  end.

End Hypo.

(** * Vocabulary of the statements *)

Section CpuVocabulary.

Import Cpu.

(** The machine that [New] builds for the code bytes [code] behind a
    well-formed header. *)
Definition boot (code : list Z) : Cpu := fst (New (Asm.Hdr ++ code)).

(** The ranges of Go's [byte] and [uint32]. *)
Definition is_byte (b : Z) : Prop := 0 ≤ b < 256.
Definition is_u32 (v : Z) : Prop := 0 ≤ v < 2 ^ 32.

(** What Go's types guarantee of a [Cpu] value: the sizes of the two
    arrays, the ranges of the fields, and a reader position that is not
    negative. *)
Record Cpu_wf (c : Cpu) : Prop := mk_wf {
  wf_reg_len : length (reg c) = 8%nat;
  wf_reg : Forall is_u32 (reg c);
  wf_mem_len : length (mem c) = Z.to_nat 8192;
  wf_mem : Forall is_byte (mem c);
  wf_pc : is_u32 (pc c);
  wf_flags : is_u32 (flags c);
  wf_buf : Forall is_byte (buf_s c);
  wf_buf_i : 0 ≤ buf_i c;
}.

(** [frame c c']: the step from [c] to [c'] leaves the reader and [pc]
    alone and keeps the state well-typed. *)
Definition frame (c c' : Cpu) : Prop :=
  (Cpu_wf c → Cpu_wf c') ∧ buf_s c' = buf_s c ∧ buf_i c' = buf_i c ∧ pc c' = pc c.

(** [framing m Q]: from a well-typed state, [m] ends (when it does not
    panic) in a well-typed state with the reader and [pc] untouched, and
    its value satisfies [Q]. *)
Definition framing {A} (m : M A) (Q : A → Prop) : Prop :=
  ∀ c a c', Cpu_wf c → m c = Done a c' → frame c c' ∧ Q a.

(** [pc] is the reader's position behind the header, as a [uint32]. *)
Definition in_sync (c : Cpu) : Prop := pc c = wrap32 (buf_i c - 4).

(** What a handler owes [Step]: started in sync with no error latched, it
    either latches an error or leaves the reader exactly its return value
    ahead of [pc]. *)
Definition handler_ok (f : M Z) : Prop :=
  ∀ c n c', Cpu_wf c → err c = None → in_sync c → f c = Done n c' →
    Cpu_wf c' ∧ (err c' ≠ None ∨ wrap32 (pc c' + n) = wrap32 (buf_i c' - 4)).

(** [evolves c c']: what no step of the machine undoes. The code and the
    sizes of the two arrays are the same, bit 0 of [flags] may have been
    set but nothing else changed in it, and the output has only grown. *)
Definition evolves (c c' : Cpu) : Prop :=
  buf_s c' = buf_s c ∧ length (reg c') = length (reg c) ∧
  length (mem c') = length (mem c) ∧
  (flags c' = flags c ∨ flags c' = Z.lor (flags c) 1) ∧
  stdout c `prefix_of` stdout c'.

(** [evolving m]: every run of [m] that does not panic ends in a state
    the start evolves to. *)
Definition evolving {A} (m : M A) : Prop :=
  ∀ c a c', m c = Done a c' → evolves c c'.

(** The comparison that decides the conditional branch of opcode [op]. *)
Definition branch_taken (op a b : Z) : bool :=
  if decide (op = Asm.OpBeq) then bool_decide (a = b)
  else if decide (op = Asm.OpBne) then bool_decide (a ≠ b)
  else if decide (op = Asm.OpBgt) then bool_decide (a > b)
  else bool_decide (a < b).

(** The state that differs from [c] in the registers, the reader position
    and [pc] only. *)
Definition moved (r : list Z) (i p : Z) (c : Cpu) : Cpu :=
  set_pc p (set_buf_i i (set_reg r c)).

(** The number of operand bytes the handler of opcode [op] reads. *)
Definition operand_bytes (op : Z) : nat :=
  if decide (op = Asm.OpNop ∨ op = Asm.OpExit) then 0
  else if decide (op = Asm.OpP ∨ op = Asm.OpJr) then 1
  else if decide (op = Asm.OpLd ∨ op = Asm.OpSt) then 2
  else if decide (op = Asm.OpAdd ∨ op = Asm.OpSub) then 3
  else if decide (op = Asm.OpJ ∨ op = Asm.OpCall) then 4
  else if decide (op = Asm.OpLr) then 5
  else 6.

End CpuVocabulary.

Section AsmVocabulary.

Import Asm.

(** No byte of [s] is a space. *)
Fixpoint no_space (s : string) : bool :=
  match s with
  | EmptyString => true
  | String c s' => negb (IsSpace c) && no_space s'
  end.

(** A token that the input ends in: a sigil or a letter, then bytes none
    of which is a space. *)
Definition unterminated_token (tok : string) : bool :=
  match tok with
  | EmptyString => false
  | String c rest => (bool_decide (is_Some (syms c)) || IsLetter c) && no_space rest
  end.

(** The result of [Read] once [x] is appended to the input: unchanged when
    it was [Eof], otherwise with [x] appended to the input left. *)
Definition extend_read (x : string) (res : read_result + panic_kind)
    : read_result + panic_kind :=
  match res with
  | inl (sy, e, lc, r) =>
      if decide (Typ sy = Eof) then res else inl (sy, e, lc, r +:+ x)
  | inr p => inr p
  end.

(** The writer after [WriteSymbol s], whether or not it reported an
    error, and after a sequence of such calls. *)
Definition emit (s : Symbol) (w : Writer) : Writer := fst (WriteSymbol s w).

Definition emit_all (ss : list Symbol) (w : Writer) : Writer :=
  foldl (λ w s, emit s w) w ss.

(** While fewer than 2^32 bytes are emitted: [pc] is the length of the
    buffer and every recorded patch owns four bytes of it, no two patches
    overlapping. *)
Record Writer_ok (w : Writer) : Prop := mk_Writer_ok {
  ok_pc : pc w = Z.of_nat (length (buf w));
  ok_slot : ∀ k n, addr w !! k = Some n → 0 ≤ k ∧ k + 4 ≤ Z.of_nat (length (buf w));
  ok_apart : ∀ k1 n1 k2 n2,
    addr w !! k1 = Some n1 → addr w !! k2 = Some n2 → k1 ≠ k2 →
    k1 + 4 ≤ k2 ∨ k2 + 4 ≤ k1;
}.

(** Fewer than 2^32 bytes are emitted, so that [pc] has not wrapped. *)
Definition small (w : Writer) : Prop := Z.of_nat (length (buf w)) < 2 ^ 32.

(** The buffer after the four stores of one patch at offset [i]. *)
Definition poke (i : nat) (l : Z) (b : list Z) : list Z :=
  <[(i + 3)%nat := byte_of (l ≫ 24)]>
    (<[(i + 2)%nat := byte_of (l ≫ 16)]>
       (<[(i + 1)%nat := byte_of (l ≫ 8)]>
          (<[i := byte_of l]> b))).


(** What [werr] keeps true of the diagnostics: one line is printed for
    each of the first nine errors counted. *)
Definition Diag_ok (d : Diag) : Prop :=
  0 ≤ errc d ∧ Z.of_nat (length (elog d)) = Z.min (errc d) 9.

(** One round of the second loop of [Gen]: [inl] when it breaks out at an
    [Eof] symbol, [inr] with the state of the next round otherwise. *)
Definition asm_step (rd : Reader) (w : Writer) (d : Diag)
    : (Writer * Diag) + (Reader * Writer * Diag) :=
  match Expect Id rd with
  | (s, e, rd') =>
      if decide (Typ s = Eof) then inl (w, d)
      else
        match e with
        | Some m => inr (rd', w, werr s m d)
        | None =>
            if decide (Typ s ≠ Label) then
              match inst !! Val s with
              | None => inr (rd', w, werr s ("bad instruction '" +:+ Val s +:+ "'") d)
              | Some f => inr (params_loop (Params f) rd' (fst (WriteSymbol s w)) d)
              end
            else
              match WriteSymbol s w with
              | (w', Some m) => inr (rd', w', werr s m d)
              | (w', None) => inr (rd', w', d)
              end
        end
  end.

(** A source text from its lines, each closed by a line feed. *)
Definition lines (l : list string) : string :=
  foldr (λ s acc, s +:+ nl +:+ acc) EmptyString l.

(** The bytes an operand of kind [t] takes in the object code. *)
Definition operand_width (t : Z) : nat := if decide (t = Reg) then 1 else 4.

(** [s] is an operand of kind [t] written as a literal that
    [WriteSymbol] can convert: a register number or a hexadecimal
    address. *)
Definition literal_operand (t : Z) (s : Symbol) : Prop :=
  Typ s = t ∧
  ((t = Reg ∧ is_Some (Atoi (Val s))) ∨ (t = Addr ∧ is_Some (ParseInt (Val s) 16 32))).

(** No byte of [s] is a line feed. *)
Fixpoint no_newline (s : string) : bool :=
  match s with
  | EmptyString => true
  | String c s' => negb (bool_decide (c = "010"%char)) && no_newline s'
  end.

(** Every byte of [s] is a space. *)
Fixpoint blank (s : string) : bool :=
  match s with
  | EmptyString => true
  | String c s' => IsSpace c && blank s'
  end.

End AsmVocabulary.

(** * Properties of the virtual machine *)

Section CpuFacts.

Import Cpu.


(** ** Register access *)

(** With no error latched, [checkReg] lets every index up to and including
    8 through and leaves the machine alone. *)
Lemma checkReg_pass (r : Z) (c : Cpu) :
  length (reg c) = 8%nat → err c = None → r ≤ 8 → checkReg r c = Done None c.
Proof.
  intros Hlen Herr Hr. unfold checkReg, mbind, M_bind, get, mret, M_ret.
  rewrite Hlen. case_decide; [lia|].
  simpl. by rewrite Herr.
Qed.

(** Index 8 is let through by the check and then indexes the eight-element
    register file: a read panics. *)
Lemma readReg_8_panics (c : Cpu) :
  length (reg c) = 8%nat → err c = None →
  readReg 8 c = Panicked (IndexOutOfRange 8 8).
Proof.
  intros Hlen Herr. unfold readReg, mbind, M_bind.
  rewrite checkReg_pass by (done || lia). unfold get.
  rewrite (lookup_ge_None_2 (reg c) (Z.to_nat 8)) by (rewrite Hlen; lia).
  unfold panic. by rewrite Hlen.
Qed.

(** Likewise for a write. *)
Lemma writeReg_8_panics (v : Z) (c : Cpu) :
  length (reg c) = 8%nat → err c = None →
  writeReg 8 v c = Panicked (IndexOutOfRange 8 8).
Proof.
  intros Hlen Herr. unfold writeReg, mbind, M_bind.
  rewrite checkReg_pass by (done || lia). unfold get.
  rewrite Hlen. case_decide; [lia|]. done.
Qed.

(** An index above 8 is refused: the error and bit 0 of [flags] are
    latched, the read yields 0 and the register file is not touched. *)
Lemma readReg_above_8 (r : Z) (c : Cpu) :
  length (reg c) = 8%nat → 8 < r →
  readReg r c =
    Done 0 (set_flags (Z.lor (flags c) 1)
              (set_err (Some ("invalid register " +:+ hex_pad 2 r)) c)).
Proof.
  intros Hlen Hr. unfold readReg, checkReg, mbind, M_bind, get, modify.
  rewrite Hlen. case_decide; [|lia]. done.
Qed.

(** ** Memory access *)

Lemma storeByte_ok (i v : Z) (c : Cpu) :
  i < Z.of_nat (length (mem c)) →
  storeByte i v c = Done () (set_mem (<[Z.to_nat i := v]> (mem c)) c).
Proof. intros Hi. unfold storeByte, mbind, M_bind, get. by case_decide. Qed.

Lemma storeByte_panics (i v : Z) (c : Cpu) :
  Z.of_nat (length (mem c)) ≤ i →
  storeByte i v c = Panicked (IndexOutOfRange i (Z.of_nat (length (mem c)))).
Proof. intros Hi. unfold storeByte, mbind, M_bind, get. case_decide; [lia|done]. Qed.

(** A store at an address from 8189 to 8192 passes the bounds test of
    [writeImm] and then runs off the end of the memory array. *)
Lemma writeImm_tail_panics (a v : Z) (c : Cpu) :
  length (mem c) = Z.to_nat 8192 → 8189 ≤ a ≤ 8192 →
  writeImm a v c = Panicked (IndexOutOfRange 8192 8192).
Proof.
  intros Hlen Ha.
  assert (Z.of_nat (length (mem c)) = 8192) as Hlen' by lia.
  unfold writeImm, mbind, M_bind, get. rewrite Hlen'.
  case_decide; [lia|].
  unfold wrap32. rewrite !Z.mod_small by lia.
  assert (a = 8189 ∨ a = 8190 ∨ a = 8191 ∨ a = 8192) as Hcases by lia.
  destruct Hcases as [-> | [-> | [-> | ->]]];
    repeat (rewrite storeByte_ok
              by (cbn [mem set_mem]; rewrite ?length_insert, Hlen'; lia));
    (rewrite storeByte_panics
       by (cbn [mem set_mem]; rewrite ?length_insert, Hlen'; lia));
    cbn [mem set_mem]; by rewrite ?length_insert, Hlen'.
Qed.

(** A store at an address up to 8188 succeeds. *)
Lemma writeImm_in_bounds (a v : Z) (c : Cpu) :
  length (mem c) = Z.to_nat 8192 → 0 ≤ a ≤ 8188 →
  ∃ m, length m = Z.to_nat 8192 ∧ writeImm a v c = Done None (set_mem m c).
Proof.
  intros Hlen Ha.
  unfold writeImm, storeByte, mbind, M_bind, get, modify, panic.
  rewrite Hlen. case_decide; [lia|].
  unfold wrap32. rewrite !Z.mod_small by lia.
  case_decide; [|lia]. simpl.
  rewrite length_insert, Hlen.
  case_decide; [|lia]. simpl.
  rewrite !length_insert, Hlen.
  case_decide; [|lia]. simpl.
  rewrite !length_insert, Hlen.
  case_decide; [|lia]. simpl.
  eexists. split; [|reflexivity]. by rewrite !length_insert.
Qed.

(** A load succeeds at address 0 only: from 1 to 4 the slice
    [mem[addr:4]] is too short for the index 3, from 5 to 8192 the slice
    bounds are inverted. *)
Lemma readImm_panics (a : Z) (c : Cpu) :
  length (mem c) = Z.to_nat 8192 → 1 ≤ a ≤ 8192 →
  ∃ p, readImm a c = Panicked p.
Proof.
  intros Hlen Ha. unfold readImm, mbind, M_bind, get, panic.
  rewrite Hlen. case_decide; [lia|].
  case_decide; [by eexists|].
  rewrite (lookup_ge_None_2 _ 3%nat); [by eexists|].
  rewrite length_take. lia.
Qed.

(** ** Typing of the machine state *)

Lemma wrap32_u32 (x : Z) : is_u32 (wrap32 x).
Proof. unfold is_u32, wrap32. apply Z.mod_pos_bound. lia. Qed.

Lemma wrap32_id (x : Z) : is_u32 x → wrap32 x = x.
Proof. unfold is_u32, wrap32. intros. by apply Z.mod_small. Qed.

Lemma byte_of_byte (x : Z) : is_byte (byte_of x).
Proof. unfold is_byte, byte_of. apply Z.mod_pos_bound. lia. Qed.

Lemma lor_below (n a b : Z) :
  0 ≤ n → 0 ≤ a < 2 ^ n → 0 ≤ b < 2 ^ n → 0 ≤ Z.lor a b < 2 ^ n.
Proof.
  intros Hn [Ha0 Ha] [Hb0 Hb]. split; [by apply Z.lor_nonneg|].
  destruct (decide (a = 0)) as [->|Hane]; [by rewrite Z.lor_0_l|].
  destruct (decide (b = 0)) as [->|Hbne]; [by rewrite Z.lor_0_r|].
  assert (0 < Z.lor a b).
  { pose proof (Z.lor_nonneg a b) as [_ Hnn].
    destruct (decide (Z.lor a b = 0)) as [Hz|]; [|lia].
    apply Z.lor_eq_0_iff in Hz. lia. }
  apply Z.log2_lt_pow2; [done|].
  rewrite Z.log2_lor by lia.
  apply Z.max_lub_lt; apply Z.log2_lt_pow2; lia.
Qed.

Lemma le32_decode_u32 (b0 b1 b2 b3 : Z) :
  is_byte b0 → is_byte b1 → is_byte b2 → is_byte b3 →
  is_u32 (le32_decode b0 b1 b2 b3).
Proof.
  unfold is_byte, is_u32, le32_decode. intros.
  rewrite !Z.shiftl_mul_pow2 by lia.
  repeat apply lor_below; lia.
Qed.

Lemma flag_latch_u32 (f : Z) : is_u32 f → is_u32 (Z.lor f 1).
Proof. unfold is_u32. intros. apply lor_below; lia. Qed.

(** ** Reasoning about computations in [M] *)

Lemma bind_Done {A B} (m : M A) (f : A → M B) (c : Cpu) (b : B) (c' : Cpu) :
  (m ≫= f) c = Done b c' → ∃ a c1, m c = Done a c1 ∧ f a c1 = Done b c'.
Proof. unfold mbind, M_bind. destruct (m c); [eauto|done]. Qed.

Lemma ret_Done {A} (a b : A) (c c' : Cpu) :
  (mret a : M A) c = Done b c' → b = a ∧ c' = c.
Proof. unfold mret, M_ret. by intros [= -> ->]. Qed.

(** Splits a hypothesis [(x ← m; k) c = Done b c'] into its two halves,
    and resolves the state primitives. *)
Ltac inv_bind H :=
  let a := fresh "a" in
  let c1 := fresh "c" in
  let H1 := fresh "Hm" in
  apply bind_Done in H as (a & c1 & H1 & H);
  try (match type of H1 with
       | get _ = Done _ _ => unfold get in H1; injection H1 as <- <-
       | modify _ _ = Done _ _ => unfold modify in H1; injection H1 as <- <-
       | panic _ _ = Done _ _ => discriminate H1
       end).

Ltac inv_ret H :=
  match type of H with
  | mret _ _ = Done _ _ => apply ret_Done in H as [-> ->]
  | panic _ _ = Done _ _ => discriminate H
  | modify _ _ = Done _ _ => unfold modify in H; injection H as <- <-
  end.

Lemma frame_refl (c : Cpu) : frame c c.
Proof. by unfold frame. Qed.

Lemma frame_trans (c1 c2 c3 : Cpu) : frame c1 c2 → frame c2 c3 → frame c1 c3.
Proof.
  intros (Hw1 & Hs1 & Hi1 & Hp1) (Hw2 & Hs2 & Hi2 & Hp2).
  unfold frame. split_and!; [auto|congruence..].
Qed.

Lemma frame_set_err (e : option string) (c : Cpu) : frame c (set_err e c).
Proof. unfold frame. split_and!; try done. intros []; by constructor. Qed.

Lemma frame_latch (c : Cpu) : frame c (set_flags (Z.lor (flags c) 1) c).
Proof.
  unfold frame. split_and!; try done. intros []; constructor; try done.
  by apply flag_latch_u32.
Qed.

Lemma frame_set_stdout (o : list Z) (c : Cpu) : frame c (set_stdout o c).
Proof. unfold frame. split_and!; try done. intros []; by constructor. Qed.

Lemma checkReg_frame (r : Z) (c : Cpu) (e : option string) (c' : Cpu) :
  checkReg r c = Done e c' → frame c c' ∧ e = err c'.
Proof.
  unfold checkReg. intros H. inv_bind H. inv_bind H.
  case_decide.
  - inv_ret Hm. inv_bind H. inv_ret H. split; [|done].
    eapply frame_trans; [eapply frame_set_err|].
    apply (frame_latch (set_err _ c)).
  - inv_ret Hm. inv_bind H. inv_ret H. split; [apply frame_refl|done].
Qed.

Lemma readReg_frame (r : Z) (c : Cpu) (v : Z) (c' : Cpu) :
  readReg r c = Done v c' → frame c c' ∧ (Cpu_wf c → is_u32 v).
Proof.
  unfold readReg. intros H. inv_bind H.
  apply checkReg_frame in Hm as [Hf ->].
  destruct (err c0) eqn:He.
  - inv_ret H. split; [done|]. intros _. unfold is_u32. lia.
  - inv_bind H. destruct (reg c0 !! Z.to_nat r) as [x|] eqn:Hx; inv_ret H.
    split; [done|]. intros Hwf. destruct Hf as [Hf _].
    specialize (Hf Hwf). destruct Hf as [_ Hreg _ _ _ _ _ _].
    rewrite Forall_lookup in Hreg. by eapply Hreg.
Qed.

Lemma writeReg_frame (r v : Z) (c : Cpu) (u : unit) (c' : Cpu) :
  is_u32 v → writeReg r v c = Done u c' → frame c c'.
Proof.
  unfold writeReg. intros Hv H. inv_bind H.
  apply checkReg_frame in Hm as [Hf ->].
  destruct (err c0) eqn:He.
  - by inv_ret H.
  - inv_bind H. case_decide; inv_ret H.
    eapply frame_trans; [done|]. unfold frame. split_and!; try done.
    intros []; constructor; simpl; try done.
    + by rewrite length_insert.
    + by apply Forall_insert.
Qed.

Lemma readImm_frame (a : Z) (c : Cpu) (i : Z) (e : option string) (c' : Cpu) :
  readImm a c = Done (i, e) c' → c' = c ∧ (Cpu_wf c → is_u32 i).
Proof.
  unfold readImm. intros H. inv_bind H.
  case_decide.
  { apply ret_Done in H as [[= -> ->] ->]. split; [done|]. unfold is_u32; lia. }
  case_decide; [inv_ret H|].
  repeat case_match; try inv_ret H.
  apply ret_Done in H as [[= -> ->] ->]. split; [done|].
  intros [_ _ _ Hmem _ _ _ _].
  assert (Hsub : ∀ k x,
    take (Z.to_nat (4 - a)) (drop (Z.to_nat a) (mem c)) !! k = Some x → is_byte x).
  { intros k x Hk. apply lookup_take_Some in Hk as [Hk _].
    rewrite lookup_drop in Hk. rewrite Forall_lookup in Hmem. by eapply Hmem. }
  apply le32_decode_u32; eauto.
Qed.

Lemma storeByte_frame (i v : Z) (c : Cpu) (u : unit) (c' : Cpu) :
  is_byte v → storeByte i v c = Done u c' → frame c c'.
Proof.
  unfold storeByte. intros Hv H. inv_bind H. case_decide; inv_ret H.
  unfold frame. split_and!; try done. intros []; constructor; simpl; try done.
  - by rewrite length_insert.
  - by apply Forall_insert.
Qed.

Lemma writeImm_frame (a v : Z) (c : Cpu) (e : option string) (c' : Cpu) :
  writeImm a v c = Done e c' → frame c c'.
Proof.
  unfold writeImm. intros H. inv_bind H.
  case_decide; [inv_ret H; apply frame_refl|].
  do 4 (let Hs := fresh "Hs" in
        apply bind_Done in H as (? & ? & Hs & H);
        apply storeByte_frame in Hs; [|apply byte_of_byte]).
  inv_ret H. eauto using frame_trans.
Qed.

(** ** [ld] never writes a register *)

Lemma checkReg_reg (r : Z) (c : Cpu) (e : option string) (c' : Cpu) :
  checkReg r c = Done e c' →
  reg c' = reg c ∧ e = err c' ∧ (is_Some (err c) → is_Some (err c')).
Proof.
  unfold checkReg. intros H. inv_bind H. inv_bind H.
  case_decide; inv_ret Hm; inv_bind H; inv_ret H; simpl; eauto.
Qed.

Lemma readReg_reg (r : Z) (c : Cpu) (v : Z) (c' : Cpu) :
  readReg r c = Done v c' → reg c' = reg c.
Proof.
  unfold readReg. intros H. inv_bind H.
  apply checkReg_reg in Hm as (Hreg & -> & _).
  destruct (err c0).
  - by inv_ret H.
  - inv_bind H. by destruct (reg c0 !! Z.to_nat r); inv_ret H.
Qed.

(** With an error latched, [writeReg] does nothing. *)
Lemma writeReg_suppressed (r v : Z) (c : Cpu) (u : unit) (c' : Cpu) :
  is_Some (err c) → writeReg r v c = Done u c' → reg c' = reg c.
Proof.
  unfold writeReg. intros Herr H. inv_bind H.
  apply checkReg_reg in Hm as (Hreg & -> & Hkeep).
  destruct (Hkeep Herr) as [e He]. rewrite He in H.
  apply ret_Done in H as [_ ->]. done.
Qed.

(** The handler of [ld] leaves the register file as it found it: the
    destination is written only after a failed read, when the error just
    latched suppresses the write. *)
Lemma ld_keeps_registers (f : M Z) (c : Cpu) (n : Z) (c' : Cpu) :
  ops Asm.OpLd = Some f → f c = Done n c' → reg c' = reg c.
Proof.
  intros [= <-] H. unfold with_operands in H. inv_bind H. inv_bind H.
  assert (reg c0 = reg c) as <-.
  { unfold read in Hm. by repeat case_decide; injection Hm as <- <-. }
  destruct (err c0); [by inv_ret H|].
  destruct a as [|r1 [|r2 [|]]]; try by inv_ret H.
  inv_bind H. apply readReg_reg in Hm0 as <-.
  inv_bind H. destruct a0 as [i e]. apply readImm_frame in Hm0 as [-> _].
  inv_bind H. inv_bind H.
  destruct e as [e|].
  - apply writeReg_suppressed in Hm0; [|by eexists]. by inv_ret H.
  - inv_ret Hm0. by inv_ret H.
Qed.

(** [jump] moves the reader to the wrapped sum and sets [pc]. *)
Lemma jump_eq (t : Z) (c : Cpu) :
  jump t c = Done None (set_pc t (set_buf_i (wrap32 (t + 4)) c)).
Proof. reflexivity. Qed.

Lemma framing_ret {A} (a : A) (Q : A → Prop) : Q a → framing (mret a) Q.
Proof. intros Ha c b c' _ H. inv_ret H. split; [apply frame_refl|done]. Qed.

Lemma framing_bind {A B} (m : M A) (f : A → M B) (Q : A → Prop) (R : B → Prop) :
  framing m Q → (∀ a, Q a → framing (f a) R) → framing (m ≫= f) R.
Proof.
  intros Hm Hf c b c' Hwf H. inv_bind H.
  destruct (Hm _ _ _ Hwf Hm0) as [Hfr Ha].
  destruct (Hf _ Ha c0 b c') as [Hfr' Hb]; [by apply Hfr|done|].
  split; [by eapply frame_trans|done].
Qed.

Lemma framing_get : framing get (λ _, True).
Proof. intros c a c' _ [= <- <-]. split; [apply frame_refl|done]. Qed.

Lemma framing_set_err (e : option string) : framing (modify (set_err e)) (λ _, True).
Proof. intros c a c' _ [= <- <-]. split; [apply frame_set_err|done]. Qed.

Lemma framing_set_stdout (o : list Z) : framing (modify (set_stdout o)) (λ _, True).
Proof. intros c a c' _ [= <- <-]. split; [apply frame_set_stdout|done]. Qed.

Lemma framing_readReg (r : Z) : framing (readReg r) is_u32.
Proof. intros c a c' Hwf H. apply readReg_frame in H as [? ?]. auto. Qed.

Lemma framing_writeReg (r v : Z) : is_u32 v → framing (writeReg r v) (λ _, True).
Proof. intros Hv c a c' Hwf H. apply writeReg_frame in H; auto. Qed.

Lemma framing_readImm (a : Z) : framing (readImm a) (λ ie, is_u32 ie.1).
Proof.
  intros c [i e] c' Hwf H. apply readImm_frame in H as [-> ?].
  split; [apply frame_refl|auto].
Qed.

Lemma framing_writeImm (a v : Z) : framing (writeImm a v) (λ _, True).
Proof. intros c e c' Hwf H. apply writeImm_frame in H. auto. Qed.

(** Builds a [framing] fact for a straight-line handler body. *)
Ltac framing_tac :=
  lazymatch goal with
  | |- framing (mbind _ _) _ =>
      eapply framing_bind; [framing_tac | intros ? ?; framing_tac]
  | |- framing (mret _) _ => apply framing_ret; try done
  | |- framing get _ => apply framing_get
  | |- framing (readReg _) _ => apply framing_readReg
  | |- framing (writeReg _ _) _ =>
      eapply framing_writeReg;
      first [apply wrap32_u32 | by apply le32_decode_u32 | done]
  | |- framing (readImm _) _ => apply framing_readImm
  | |- framing (writeImm _ _) _ => apply framing_writeImm
  | |- framing (modify (set_err _)) _ => apply framing_set_err
  | |- framing (modify (set_stdout _)) _ => apply framing_set_stdout
  | |- framing (match ?x with _ => _ end) _ => destruct x eqn:?; framing_tac
  | |- framing (panic _) _ => by intros ? ? ? ? ?
  end.

(** What [with_operands] does with no error latched: either the read of
    the operands fails and the handler returns 0 with the error set, or the
    [n] bytes at the reader are consumed and handed to [k]. *)
Lemma with_operands_inv (n : nat) (k : list Z → M Z) (c : Cpu) (r : Z) (c' : Cpu) :
  Cpu_wf c → err c = None → with_operands n k c = Done r c' →
  (err c' ≠ None ∧ r = 0 ∧ Cpu_wf c') ∨
  (∃ bs, length bs = n ∧ Forall is_byte bs ∧
         Cpu_wf (set_buf_i (buf_i c + Z.of_nat n) c) ∧
         k bs (set_buf_i (buf_i c + Z.of_nat n) c) = Done r c').
Proof.
  intros Hwf Herr H. unfold with_operands in H. inv_bind H. inv_bind H.
  assert (Hbytes : Forall is_byte (take n (drop (Z.to_nat (buf_i c)) (buf_s c))))
    by (destruct Hwf; by apply Forall_take, Forall_drop).
  unfold read in Hm. case_decide.
  { injection Hm as <- <-. simpl in H. inv_ret H. left. split_and!; try done.
    destruct Hwf; by constructor. }
  case_decide as Hlen; injection Hm as <- <-; simpl in H.
  - rewrite Herr in H. right. eexists. rewrite Hlen in H. split_and!; try done.
    destruct Hwf; constructor; simpl; try done. lia.
  - inv_ret H. left. split_and!; try done.
    destruct Hwf; constructor; simpl; try done. lia.
Qed.

(** ** The program counter and the reader *)

Lemma sync_after_operands (p i n : Z) :
  p = wrap32 (i - 4) → wrap32 (p + n) = wrap32 (i + n - 4).
Proof.
  intros ->. unfold wrap32. rewrite Z.add_mod_idemp_l by lia. f_equal. lia.
Qed.

Lemma sync_after_jump (t : Z) : wrap32 (t + 0) = wrap32 (wrap32 (t + 4) - 4).
Proof.
  unfold wrap32. rewrite Zminus_mod_idemp_l. f_equal. lia.
Qed.

(** Handlers that consume [n] operand bytes, do not jump and return [n]. *)
Lemma straight_ok (n : nat) (k : list Z → M Z) :
  (∀ bs, length bs = n → Forall is_byte bs → framing (k bs) (λ r, r = Z.of_nat n)) →
  handler_ok (with_operands n k).
Proof.
  intros Hk c r c' Hwf Herr Hsync H.
  apply with_operands_inv in H as [(? & ? & ?)|(bs & Hlen & Hb & Hwf1 & H)];
    [by auto| |done..].
  destruct (Hk bs Hlen Hb _ _ _ Hwf1 H) as [(Hw & _ & Hi & Hp) ->].
  split; [by apply Hw|]. right. rewrite Hi, Hp. simpl.
  by apply sync_after_operands.
Qed.

(** Turns [Forall is_byte [b1; ...; bn]] into one fact per byte. *)
Ltac split_bytes :=
  repeat match goal with
         | H : Forall is_byte (_ :: _) |- _ => apply Forall_cons_1 in H as [? H]
         end.

(** Gives the operand list the exact shape the handler matches on. *)
Ltac shape_operands bs Hlen :=
  do 7 (try (destruct bs as [|? bs]; [try discriminate Hlen|])); try discriminate Hlen.

Ltac straight_tac :=
  apply straight_ok;
  let bs := fresh "bs" in
  let Hlen := fresh "Hlen" in
  let Hb := fresh "Hb" in
  intros bs Hlen Hb; shape_operands bs Hlen; split_bytes; simpl; framing_tac.

Lemma jump_target_ok (t : Z) (c : Cpu) :
  Cpu_wf c → is_u32 t →
  let c' := set_pc t (set_buf_i (wrap32 (t + 4)) c) in
  Cpu_wf c' ∧ (err c' ≠ None ∨ wrap32 (pc c' + 0) = wrap32 (buf_i c' - 4)).
Proof.
  intros Hwf Ht. split.
  - destruct Hwf; constructor; simpl; try done. apply wrap32_u32.
  - right. apply sync_after_jump.
Qed.

Lemma branch_ok (taken : Z → Z → bool) : handler_ok (branch taken).
Proof.
  intros c n c' Hwf Herr Hsync H. unfold branch in H.
  apply with_operands_inv in H as [(? & ? & ?)|(bs & Hlen & Hb & Hwf1 & H)];
    [by auto| |done..].
  shape_operands bs Hlen. split_bytes. simpl in H.
  inv_bind H. apply readReg_frame in Hm as [Hf1 _].
  inv_bind H. apply readReg_frame in Hm as [Hf2 _].
  pose proof (frame_trans _ _ _ Hf1 Hf2) as (Hw & _ & Hi & Hp).
  destruct (taken a a0).
  - inv_bind H. rewrite jump_eq in Hm. injection Hm as <- <-. inv_ret H.
    apply jump_target_ok; [by apply Hw|by apply le32_decode_u32].
  - inv_ret H. split; [by apply Hw|]. right. rewrite Hi, Hp. simpl.
    by apply sync_after_operands.
Qed.

Lemma ops_ok (op : Z) (f : M Z) : ops op = Some f → handler_ok f.
Proof.
  unfold ops. repeat case_decide; intros [= <-]; clear.
  - (* nop *) intros c n c' Hwf Herr Hsync H. inv_ret H. split; [done|].
    right. rewrite Z.add_0_r, Hsync. unfold wrap32. by rewrite Z.mod_mod.
  - (* ld *) straight_tac.
  - (* lr *) straight_tac.
  - (* st *) straight_tac.
  - (* add *) straight_tac.
  - (* sub *) straight_tac.
  - (* addi *) straight_tac.
  - (* subi *) straight_tac.
  - (* p *) straight_tac.
  - apply branch_ok.
  - apply branch_ok.
  - apply branch_ok.
  - apply branch_ok.
  - (* j *) intros c n c' Hwf Herr Hsync H.
    apply with_operands_inv in H as [(? & ? & ?)|(bs & Hlen & Hb & Hwf1 & H)];
      [by auto| |done..].
    shape_operands bs Hlen. split_bytes. simpl in H.
    inv_bind H. rewrite jump_eq in Hm. injection Hm as <- <-. inv_ret H.
    apply jump_target_ok; [done|by apply le32_decode_u32].
  - (* jr *) intros c n c' Hwf Herr Hsync H.
    apply with_operands_inv in H as [(? & ? & ?)|(bs & Hlen & Hb & Hwf1 & H)];
      [by auto| |done..].
    shape_operands bs Hlen. split_bytes. simpl in H.
    inv_bind H. apply readReg_frame in Hm as [[Hw _] Hv].
    inv_bind H. rewrite jump_eq in Hm. injection Hm as <- <-. inv_ret H.
    apply jump_target_ok; auto.
  - (* call *) intros c n c' Hwf Herr Hsync H.
    apply with_operands_inv in H as [(? & ? & ?)|(bs & Hlen & Hb & Hwf1 & H)];
      [by auto| |done..].
    shape_operands bs Hlen. split_bytes. simpl in H.
    inv_bind H. inv_bind H.
    apply writeReg_frame in Hm as [Hw _]; [|apply wrap32_u32].
    inv_bind H. rewrite jump_eq in Hm. injection Hm as <- <-. inv_ret H.
    apply jump_target_ok; [auto|by apply le32_decode_u32].
  - (* exit *) intros c n c' Hwf Herr Hsync H.
    inv_bind H. inv_ret H. split.
    + by apply (frame_latch c).
    + right. simpl. rewrite Z.add_0_r, Hsync. unfold wrap32. by rewrite Z.mod_mod.
Qed.

(** One error-free [Step] keeps the state well-typed and in sync. *)
Lemma Step_in_sync (c c' : Cpu) :
  Cpu_wf c → in_sync c → Step c = Done None c' → Cpu_wf c' ∧ in_sync c'.
Proof.
  intros Hwf Hsync H. unfold Step in H. inv_bind H. inv_bind H.
  destruct (err c0) eqn:Herr0; cbv beta iota in H;
    [by apply ret_Done in H as [? _]|].
  assert (err c = None ∧ c0 = set_buf_i (buf_i c + 1) c) as [Herr ->].
  { unfold read in Hm. repeat case_decide; injection Hm as <- <-; try done.
    simpl in *. split; [done|]. by rewrite H1. }
  inv_bind H. simpl in H.
  set (c1 := set_pc (wrap32 (pc c + 1)) (set_buf_i (buf_i c + 1) c)) in *.
  assert (Cpu_wf c1) as Hwf1.
  { destruct Hwf; constructor; simpl; try done; [apply wrap32_u32|lia]. }
  assert (in_sync c1) as Hsync1.
  { unfold in_sync, c1. simpl. rewrite (sync_after_operands _ (buf_i c)) by done.
    done. }
  destruct (ops _) as [f|] eqn:Hops.
  - inv_bind H. inv_bind H. inv_bind H. apply ret_Done in H as [He ->].
    simpl in He.
    destruct (ops_ok _ _ Hops c1 a0 c0) as [Hwf0 [Hbad|Hpost]]; try done.
    split.
    + destruct Hwf0; constructor; simpl; try done. apply wrap32_u32.
    + unfold in_sync. simpl. done.
  - inv_bind H. by apply ret_Done in H as [? _].
Qed.

(** Any number of error-free steps does. *)
Lemma steps_in_sync (n : nat) (c c' : Cpu) :
  Cpu_wf c → in_sync c → steps n c = Some c' → Cpu_wf c' ∧ in_sync c'.
Proof.
  revert c. induction n as [|n IH]; intros c Hwf Hsync H; simpl in H.
  - by injection H as <-.
  - destruct (Step c) as [[e|] c1|] eqn:Hstep; try done.
    destruct (Step_in_sync _ _ Hwf Hsync Hstep). eauto.
Qed.

(** [New] on an object of at least four bytes that it accepts. *)
Lemma New_in_sync (obj : list Z) (c0 : Cpu) :
  Forall is_byte obj → (4 ≤ length obj)%nat → New obj = (c0, None) →
  Cpu_wf c0 ∧ in_sync c0.
Proof.
  intros Hb Hlen H. unfold New in H.
  destruct (decide (length obj = 0%nat)); [discriminate H|].
  destruct (decide (_ = Asm.Hdr)); [|discriminate H].
  apply (f_equal fst) in H. cbn [fst] in H. subst c0.
  rewrite length_take, Nat.min_l by done.
  split; [|reflexivity].
  constructor; unfold set_buf_i; cbn [reg mem pc flags buf_s buf_i].
  - by rewrite length_replicate.
  - apply Forall_replicate. unfold is_u32. lia.
  - by rewrite length_replicate.
  - apply Forall_replicate. unfold is_byte. lia.
  - unfold is_u32. lia.
  - unfold is_u32. lia.
  - done.
  - lia.
Qed.

(** The bound on the length is needed: [New] reads the header with a
    single [Read] and compares a zero-filled buffer, so the three bytes
    [48 59 50] pass as a header and leave the reader at position 3. *)
Lemma short_header_accepted :
  snd (New [72; 89; 80]) = None ∧ buf_i (fst (New [72; 89; 80])) = 3 ∧
  pc (fst (New [72; 89; 80])) = 0.
Proof. by vm_compute. Qed.

(** ** Evaluating single instructions *)

Lemma read_ok (n : nat) (c : Cpu) (bs rest : list Z) :
  0 ≤ buf_i c → drop (Z.to_nat (buf_i c)) (buf_s c) = bs ++ rest →
  length bs = n → n ≠ 0%nat →
  read n c = Done bs (set_buf_i (buf_i c + Z.of_nat n) c).
Proof.
  intros Hi Hdrop Hlen Hn. unfold read. case_decide as Hend.
  { rewrite drop_ge in Hdrop by lia. destruct bs; [done|discriminate]. }
  rewrite Hdrop, take_app_length' by done. rewrite Hlen.
  by case_decide.
Qed.

Lemma drop_next (i : Z) (n : nat) (l bs rest : list Z) :
  0 ≤ i → drop (Z.to_nat i) l = bs ++ rest → length bs = n →
  drop (Z.to_nat (i + Z.of_nat n)) l = rest.
Proof.
  intros Hi Hdrop Hlen.
  replace (Z.to_nat (i + Z.of_nat n)) with (Z.to_nat i + n)%nat by lia.
  by rewrite <- drop_drop, Hdrop, drop_app_length'.
Qed.

Lemma readReg_ok (r v : Z) (c : Cpu) :
  length (reg c) = 8%nat → err c = None → r ≤ 8 →
  reg c !! Z.to_nat r = Some v → readReg r c = Done v c.
Proof.
  intros Hlen Herr Hr Hv. unfold readReg, mbind, M_bind.
  rewrite checkReg_pass by done. unfold get. by rewrite Hv.
Qed.

Lemma writeReg_ok (r v : Z) (c : Cpu) :
  length (reg c) = 8%nat → err c = None → 0 ≤ r < 8 →
  writeReg r v c = Done () (set_reg (<[Z.to_nat r := v]> (reg c)) c).
Proof.
  intros Hlen Herr Hr. unfold writeReg, mbind, M_bind.
  rewrite checkReg_pass by (done || lia). unfold get. rewrite Hlen.
  by case_decide; [|lia].
Qed.

(** The fetch and dispatch part of [Step], when an opcode byte with a
    handler is at the reader and no error is latched. *)
Lemma Step_fetch (c : Cpu) (op : Z) (rest : list Z) (f : M Z) :
  0 ≤ buf_i c → err c = None →
  drop (Z.to_nat (buf_i c)) (buf_s c) = op :: rest → ops op = Some f →
  Step c =
    match f (set_pc (wrap32 (pc c + 1)) (set_buf_i (buf_i c + 1) c)) with
    | Done n c' => Done (err c') (set_pc (wrap32 (pc c' + n)) c')
    | Panicked p => Panicked p
    end.
Proof.
  intros Hi Herr Hdrop Hops. unfold Step, mbind, M_bind.
  rewrite (read_ok 1 c [op] rest) by done.
  unfold get. change (err (set_buf_i _ c)) with (err c). rewrite Herr.
  unfold modify. change (default 0 (head [op])) with op. rewrite Hops.
  by destruct (f _).
Qed.

(** The operand read of a handler, when the operands are there. *)
Lemma with_operands_ok (n : nat) (k : list Z → M Z) (c : Cpu) (bs rest : list Z) :
  0 ≤ buf_i c → err c = None →
  drop (Z.to_nat (buf_i c)) (buf_s c) = bs ++ rest → length bs = n → n ≠ 0%nat →
  with_operands n k c = k bs (set_buf_i (buf_i c + Z.of_nat n) c).
Proof.
  intros Hi Herr Hdrop Hlen Hn. unfold with_operands, mbind, M_bind.
  rewrite (read_ok n c bs rest) by done.
  unfold get. change (err (set_buf_i _ c)) with (err c). by rewrite Herr.
Qed.



End CpuFacts.

(** * Claims about the virtual machine *)

Section CpuClaims.

Import Cpu.

(** C1 (defect in the code). The program [lr $2a %1; st %0 %1; ld %2 %0]
    runs three steps without error: register 0 holds the in-bounds address
    0, the four memory bytes there hold 42 in little-endian order, and
    after the [ld] its destination register 2 still holds 0 rather than 42.
    With the in-bounds address 4 in the address register ([lr $4 %0;
    ld %1 %0]) the [ld] step does not return at all: it panics. *)
Theorem ld_does_not_load :
  (∃ c, steps 3 (boot [2; 42; 0; 0; 0; 1; 3; 0; 1; 1; 2; 0]) = Some c ∧
        reg c !! 0%nat = Some 0 ∧ take 4 (mem c) = [42; 0; 0; 0] ∧
        reg c !! 2%nat = Some 0 ∧ err c = None) ∧
  (∃ c, steps 1 (boot [2; 4; 0; 0; 0; 0; 1; 1; 0]) = Some c ∧
        reg c !! 0%nat = Some 4 ∧
        Step c = Panicked (IndexOutOfRange 3 0)).
Proof.
  split; eexists; (split; [vm_compute; reflexivity|]); vm_compute; done.
Qed.

(** C2 (defect in the code). Register index 8 is not refused: [lr $41 %8]
    indexes the eight-element register file at 8 and panics, with no error
    set and no flag latched; [p %9] indexes it at 9 without any check. *)
Theorem register_index_8_panics :
  Step (boot [2; 65; 0; 0; 0; 8]) = Panicked (IndexOutOfRange 8 8) ∧
  Step (boot [8; 9]) = Panicked (IndexOutOfRange 9 8).
Proof. split; vm_compute; reflexivity. Qed.

(** C3 (defect in the code). A 32-bit store at address 8189 is not refused:
    after [lr $1ffd %0] the step [st %0 %1] passes the bounds test and
    indexes the 8192-byte memory at 8192, which panics. *)
Theorem store_at_8189_panics :
  ∃ c, steps 1 (boot [2; 253; 31; 0; 0; 0; 3; 0; 1]) = Some c ∧
       reg c !! 0%nat = Some 8189 ∧
       Step c = Panicked (IndexOutOfRange 8192 8192).
Proof.
  eexists. split; [vm_compute; reflexivity|]. vm_compute. done.
Qed.

(** C4, as stated, fails: after the single error-free step [j $ffffffff]
    the machine has [pc = 4294967295] while the reader stands at position
    3, so [pc] is not the reader position minus 4. *)
Lemma pc_differs_from_cursor_after_wrapped_jump :
  let obj := [72; 89; 80; 0; 13; 255; 255; 255; 255] in
  snd (New obj) = None ∧
  ∃ c, steps 1 (fst (New obj)) = Some c ∧
       pc c = 4294967295 ∧ buf_i c = 3 ∧ pc c ≠ buf_i c - 4.
Proof.
  split; [reflexivity|]. eexists.
  split; [vm_compute; reflexivity|]. vm_compute. done.
Qed.

(** C4, amended. For every object of at least four bytes that the loader
    accepts and every sequence of steps that each complete without error,
    at the start of the next fetch [pc] equals the reader position minus
    the 4-byte header length modulo 2^32; the two are equal as integers
    whenever the reader stands behind the header and below 2^32 + 4. *)
Theorem pc_tracks_cursor_modulo_2_32 (obj : list Z) (c0 : Cpu) (n : nat) (c : Cpu) :
  Forall is_byte obj → (4 ≤ length obj)%nat → New obj = (c0, None) →
  steps n c0 = Some c →
  pc c = wrap32 (buf_i c - 4) ∧
  (4 ≤ buf_i c < 2 ^ 32 + 4 → pc c = buf_i c - 4).
Proof.
  intros Hb Hlen Hnew Hrun.
  destruct (New_in_sync _ _ Hb Hlen Hnew) as [Hwf Hsync].
  destruct (steps_in_sync _ _ _ Hwf Hsync Hrun) as [_ Hc].
  split; [done|]. intros Hi. rewrite Hc.
  apply wrap32_id. unfold is_u32. lia.
Qed.

Lemma pc_tracks_cursor_modulo_2_32_witness :
  let obj := [72; 89; 80; 0; 13; 255; 255; 255; 255] in
  ∃ c, steps 2 (fst (New obj)) = Some c ∧ pc c = wrap32 (buf_i c - 4).
Proof.
  intros obj.
  assert (∃ c, steps 2 (fst (New obj)) = Some c) as [c Hc]
    by (eexists; vm_compute; reflexivity).
  exists c. split; [done|].
  apply (pc_tracks_cursor_modulo_2_32 obj (fst (New obj)) 2 c).
  - repeat constructor; unfold is_byte; lia.
  - simpl. lia.
  - reflexivity.
  - done.
Defined.



End CpuClaims.

(** * Properties of the assembler *)

Section LexerFacts.

Import Asm.

(** ** Byte classes *)

Lemma letter_class (c : ascii) :
  IsLetter c = true →
  IsSpace c = false ∧ IsGraphic c = true ∧ syms c = None ∧
  c ≠ "#"%char ∧ c ≠ "010"%char.
Proof.
  destruct c as [[] [] [] [] [] [] [] []]; vm_compute; intros; try done.
Qed.

Lemma sigil_class (c : ascii) (t : Z) :
  syms c = Some t →
  IsSpace c = false ∧ IsGraphic c = true ∧ c ≠ "#"%char ∧ c ≠ "010"%char.
Proof.
  unfold syms. repeat case_decide; intros; simplify_eq; by vm_compute.
Qed.

Lemma space_not_hash (c : ascii) : IsSpace c = true → c ≠ "#"%char.
Proof. intros H ->. by vm_compute in H. Qed.

Lemma newline_is_space : IsSpace "010" = true.
Proof. reflexivity. Qed.

(** ** Input with more bytes appended *)

(** A comment that the input ends in swallows what is appended to it;
    one that a line feed ends leaves it in the input. *)
Lemma skip_line_app (s x : string) :
  no_space x = true →
  skip_line (s +:+ x) = skip_line s +:+ x ∨
  (skip_line (s +:+ x) = EmptyString ∧ skip_line s = EmptyString).
Proof.
  intros Hx. induction s as [|c s IH].
  - right. split; [|done]. change (EmptyString +:+ x) with x.
    clear -Hx. induction x as [|c x IH]; [done|].
    cbn [no_space] in Hx. apply andb_prop in Hx as [Hc Hx].
    apply negb_true_iff in Hc. cbn [skip_line].
    rewrite decide_False; [by apply IH|]. intros ->. by vm_compute in Hc.
  - change (String c s +:+ x) with (String c (s +:+ x)). cbn [skip_line].
    case_decide; [by left|done].
Qed.

(** [ReadToken] running off the end of the input. *)
Lemma ReadToken_eof (b : string) (lc : Z) (r : string) :
  no_space r = true → ReadToken b lc r = (EmptyString, Some "EOF"%string, lc, EmptyString).
Proof.
  revert b. induction r as [|c r IH]; intros b H; [done|].
  simpl in H. apply andb_prop in H as [Hc Hr]. apply negb_true_iff in Hc.
  simpl. rewrite Hc. case_decide as Hnl.
  - subst c. by vm_compute in Hc.
  - by apply IH.
Qed.

(** [ReadToken] when bytes without a space are appended to the input: a
    token that a space ends is found as before, and the end of the input
    is reached as before. *)
Lemma ReadToken_app (b : string) (lc : Z) (s x : string) :
  no_space x = true →
  ReadToken b lc (s +:+ x) =
    match ReadToken b lc s with
    | (t, None, lc', r) => (t, None, lc', r +:+ x)
    | res => res
    end.
Proof.
  intros Hx. revert b lc. induction s as [|c s IH]; intros b lc.
  - change (EmptyString +:+ x) with x. cbn [ReadToken]. by rewrite ReadToken_eof.
  - change (String c s +:+ x) with (String c (s +:+ x)). cbn [ReadToken].
    destruct (IsSpace c); [done|]. apply IH.
Qed.

(** ** What [Read] does with an unterminated last token *)

Lemma Read_loop_token (sy : Symbol) (lc : Z) (tok : string) :
  Typ sy = -1 → unterminated_token tok = true →
  Read_loop sy lc tok = inl (set_Typ Eof sy, None, lc, EmptyString).
Proof.
  intros Hsy Htok. destruct tok as [|c rest]; [done|].
  simpl in Htok. apply andb_prop in Htok as [Hc Hrest].
  apply orb_prop in Hc as [Hc|Hc].
  - apply bool_decide_eq_true in Hc as [t Ht].
    destruct (sigil_class _ _ Ht) as (Hsp & Hgr & Hh & Hnl).
    simpl. rewrite Hsp, Hgr, Ht. simpl. repeat case_decide; try done.
    by rewrite ReadToken_eof.
  - destruct (letter_class _ Hc) as (Hsp & Hgr & Hsy' & Hh & Hnl).
    simpl. rewrite Hsp, Hgr, Hsy', Hc. simpl. repeat case_decide; try done.
    rewrite bool_decide_eq_true_2 by done. simpl.
    by rewrite ReadToken_eof.
Qed.

Lemma unterminated_no_space (tok : string) :
  unterminated_token tok = true → no_space tok = true.
Proof.
  destruct tok as [|c rest]; [done|]. cbn [unterminated_token no_space].
  intros H. apply andb_prop in H as [Hc ->]. rewrite andb_true_r.
  apply negb_true_iff. apply orb_prop in Hc as [Hc|Hc].
  - apply bool_decide_eq_true in Hc as [t Ht]. by destruct (sigil_class _ _ Ht).
  - by destruct (letter_class _ Hc).
Qed.

(** [Read] when an unterminated token is appended to the input: either
    the result is the same with the token still in the input left, or
    the token was swallowed, by an unterminated token or comment that the
    input already ended in, and the result is the same altogether. *)
Lemma Read_loop_app (sy : Symbol) (lc : Z) (s tok : string) :
  Typ sy = -1 → unterminated_token tok = true →
  Read_loop sy lc (s +:+ tok) = extend_read tok (Read_loop sy lc s) ∨
  Read_loop sy lc (s +:+ tok) = Read_loop sy lc s.
Proof.
  intros Hsy Htok. pose proof (unterminated_no_space _ Htok) as Hns.
  revert lc. induction s as [|c s IH]; intros lc.
  { right. change (EmptyString +:+ tok) with tok. by rewrite Read_loop_token. }
  change (String c s +:+ tok) with (String c (s +:+ tok)).
  cbn [Read_loop].
  set (lc1 := if decide (c = "010"%char) then lc + 1 else lc).
  destruct (decide (c = "#"%char)) as [->|Hhash].
  { destruct (skip_line_app s tok Hns) as [->|[-> ->]]; [left|by right].
    cbn [extend_read]. rewrite decide_False; [done|]. by rewrite Hsy. }
  destruct (IsSpace c) eqn:Hsp; [apply IH|].
  destruct (IsGraphic c) eqn:Hgr; cbn [negb].
  2:{ left. cbn [extend_read]. rewrite decide_False; [done|]. by rewrite Hsy. }
  destruct (syms c) as [t|] eqn:Hsym.
  { rewrite ReadToken_app by done.
    destruct (ReadToken EmptyString lc1 s) as [[[tk [e|]] lc'] r]; [by right|].
    left. cbn [extend_read Typ]. rewrite decide_False; [done|].
    unfold syms in Hsym. repeat case_decide; by simplify_eq. }
  destruct (bool_decide (Typ sy = -1) && IsLetter c) eqn:Hlet; [|apply IH].
  change (String c (s +:+ tok)) with (String c s +:+ tok).
  rewrite ReadToken_app by done.
  destruct (ReadToken EmptyString lc1 (String c s)) as [[[tk [e|]] lc'] r]; [by right|].
  destruct (last_is_colon tk) as [[]|]; [left..|by right];
    cbn [extend_read Typ]; by rewrite decide_False.
Qed.

(** Appending an unterminated token to a source does not change what the
    first loop of [Gen] collects. *)
Lemma lex_loop_app (fuel : nat) (acc : list Symbol) (d : Diag) (lc : Z) (s tok : string) :
  unterminated_token tok = true →
  lex_loop fuel acc d lc (s +:+ tok) = lex_loop fuel acc d lc s.
Proof.
  intros Htok. revert acc d lc s.
  induction fuel as [|fuel IH]; intros acc d lc s; [done|].
  cbn [lex_loop]. unfold Read.
  destruct (Read_loop_app (mkSymbol (-1) "" 0) lc s tok) as [->| ->]; [done|done| |done].
  destruct (Read_loop _ lc s) as [[[[sy e] lc'] r]|p]; [|done].
  unfold extend_read. destruct (decide (Typ sy = Eof)) as [Heof|Heof].
  - by repeat case_decide.
  - cbv beta iota. repeat case_decide; try done; apply IH.
Qed.

End LexerFacts.

Section WriterFacts.

Import Asm.

(** ** Sequences of [WriteSymbol] calls *)

Lemma emit_all_app (l1 l2 : list Symbol) (w : Writer) :
  emit_all (l1 ++ l2) w = emit_all l2 (emit_all l1 w).
Proof. apply foldl_app. Qed.

(** The shapes a writer can take after one call. *)
Lemma emit_cases (s : Symbol) (w : Writer) :
  emit s w = w
  ∨ (∃ b, emit s w = mkWriter (buf w ++ [b]) (wrap32 (pc w + 1)) (lab w) (addr w))
  ∨ (∃ a, emit s w = mkWriter (buf w ++ le32 a) (wrap32 (pc w + 4)) (lab w) (addr w))
  ∨ (Typ s = Id ∧ inst !! Val s = None ∧
     emit s w = mkWriter (buf w ++ le32 0) (wrap32 (pc w + 4)) (lab w)
                  (<[pc w := Val s]> (addr w)))
  ∨ (Typ s = Label ∧ lab w !! Val s = None ∧
     emit s w = mkWriter (buf w) (pc w) (<[Val s := pc w]> (lab w)) (addr w)).
Proof.
  unfold emit, WriteSymbol.
  repeat case_decide; repeat case_match; simpl; eauto 10.
Qed.


(** A reference to a name that is a mnemonic emits its opcode byte. *)
Lemma emit_mnemonic (L : string) (ln : Z) (f : Instruction) (w : Writer) :
  inst !! L = Some f →
  emit (mkSymbol Id L ln) w =
    mkWriter (buf w ++ [Op f]) (wrap32 (pc w + 1)) (lab w) (addr w).
Proof.
  intros HL. unfold emit, WriteSymbol. cbn [Typ Val].
  case_decide; [|done]. by rewrite HL.
Qed.

(** The first definition of a label binds it to the current offset. *)
Lemma emit_label (L : string) (ln : Z) (w : Writer) :
  lab w !! L = None →
  emit (mkSymbol Label L ln) w =
    mkWriter (buf w) (pc w) (<[L := pc w]> (lab w)) (addr w).
Proof. intros HL. unfold emit, WriteSymbol. simpl. by rewrite HL. Qed.

(** ** The writer invariant *)

Lemma NewWriter_ok : Writer_ok NewWriter.
Proof.
  constructor; [done|intros k n H|intros k n ? ? H];
    change (addr NewWriter) with (∅ : gmap Z string) in H;
    by rewrite lookup_empty in H.
Qed.

Lemma emit_grows (s : Symbol) (w : Writer) :
  (length (buf w) ≤ length (buf (emit s w)))%nat.
Proof.
  destruct (emit_cases s w) as [->|[[b ->]|[[a ->]|[(_ & _ & ->)|(_ & _ & ->)]]]];
    simpl; rewrite ?length_app; simpl; lia.
Qed.

Lemma emit_all_grows (ss : list Symbol) (w : Writer) :
  (length (buf w) ≤ length (buf (emit_all ss w)))%nat.
Proof.
  revert w. induction ss as [|s ss IH]; intros w; simpl; [done|].
  etrans; [apply (emit_grows s)|apply IH].
Qed.

Lemma emit_ok (s : Symbol) (w : Writer) :
  Writer_ok w → small (emit s w) → Writer_ok (emit s w).
Proof.
  intros [Hpc Hslot Hapart] Hsmall. unfold small in Hsmall.
  destruct (emit_cases s w) as [->|[[b E]|[[a E]|[(_ & _ & E)|(_ & _ & E)]]]];
    [done|rewrite E in *; simpl in *..].
  - rewrite length_app in *. simpl in *.
    constructor; simpl; [| |done].
    + rewrite length_app. simpl. rewrite wrap32_id by (unfold is_u32; lia). lia.
    + intros k n Hk. rewrite length_app. simpl. specialize (Hslot _ _ Hk). lia.
  - rewrite length_app in *. simpl in *.
    constructor; simpl; [| |done].
    + rewrite length_app. simpl. rewrite wrap32_id by (unfold is_u32; lia). lia.
    + intros k n Hk. rewrite length_app. simpl. specialize (Hslot _ _ Hk). lia.
  - rewrite length_app in *. simpl in *.
    constructor; simpl.
    + rewrite length_app. simpl. rewrite wrap32_id by (unfold is_u32; lia). lia.
    + intros k n Hk. rewrite length_app. simpl.
      apply lookup_insert_Some in Hk as [[<- _]|[_ Hk]]; [lia|].
      specialize (Hslot _ _ Hk). lia.
    + intros k1 n1 k2 n2 H1 H2 Hne.
      apply lookup_insert_Some in H1 as [[<- _]|[_ H1]];
        apply lookup_insert_Some in H2 as [[<- _]|[_ H2]]; try done.
      * specialize (Hslot _ _ H2). lia.
      * specialize (Hslot _ _ H1). lia.
      * eauto.
  - by constructor.
Qed.

Lemma emit_all_ok (ss : list Symbol) (w : Writer) :
  Writer_ok w → small (emit_all ss w) → Writer_ok (emit_all ss w).
Proof.
  revert w. induction ss as [|s ss IH]; intros w Hok Hsmall; simpl in *; [done|].
  apply IH; [|done]. apply emit_ok; [done|].
  unfold small in *. pose proof (emit_all_grows ss (emit s w)).
  unfold emit_all in *. lia.
Qed.


Lemma emit_keeps_label (s : Symbol) (w : Writer) (L : string) (v : Z) :
  lab w !! L = Some v → lab (emit s w) !! L = Some v.
Proof.
  intros HL.
  destruct (emit_cases s w) as [->|[[b ->]|[[a ->]|[(_ & _ & ->)|(_ & HN & ->)]]]];
    simpl; try done.
  rewrite lookup_insert_ne; [done|]. intros E. rewrite E in HN. congruence.
Qed.


Lemma emit_all_keeps_label (ss : list Symbol) (w : Writer) (L : string) (v : Z) :
  lab w !! L = Some v → lab (emit_all ss w) !! L = Some v.
Proof.
  revert w. induction ss as [|s ss IH]; intros w HL; simpl; [done|].
  by apply IH, emit_keeps_label.
Qed.

(** ** Patching *)

Lemma length_poke (i : nat) (l : Z) (b : list Z) : length (poke i l b) = length b.
Proof. unfold poke. by rewrite !length_insert. Qed.

Lemma poke_outside (i : nat) (l : Z) (b : list Z) (j : nat) :
  (j < i ∨ i + 4 ≤ j)%nat → poke i l b !! j = b !! j.
Proof. intros Hj. unfold poke. rewrite !list_lookup_insert_ne by lia. done. Qed.

Lemma poke_inside (i : nat) (l : Z) (b : list Z) :
  (i + 4 ≤ length b)%nat → take 4 (drop i (poke i l b)) = le32 l.
Proof.
  intros Hi. apply list_eq. intros j.
  destruct (decide (j < 4)%nat) as [Hj|Hj].
  2:{ rewrite lookup_take_ge by lia. symmetry. apply lookup_ge_None_2.
      simpl. lia. }
  rewrite lookup_take_lt, lookup_drop by lia. unfold poke, le32.
  destruct j as [|[|[|[|j]]]]; [..|lia]; simpl.
  - rewrite Nat.add_0_r. rewrite !list_lookup_insert_ne by lia.
    apply list_lookup_insert_eq. lia.
  - rewrite !list_lookup_insert_ne by lia.
    apply list_lookup_insert_eq. rewrite length_insert. lia.
  - rewrite !list_lookup_insert_ne by lia.
    apply list_lookup_insert_eq. rewrite !length_insert. lia.
  - apply list_lookup_insert_eq. rewrite !length_insert. lia.
Qed.








(** ** [Write] *)



(** ** References and their patches *)


(** The first definition of a label binds it to the offset reached by the
    symbols before it, for good. *)
Lemma label_defined_at (pre post : list Symbol) (L : string) (ln : Z) :
  lab (emit_all pre NewWriter) !! L = None →
  lab (emit_all (pre ++ mkSymbol Label L ln :: post) NewWriter) !! L
    = Some (pc (emit_all pre NewWriter)).
Proof.
  intros HL. rewrite emit_all_app. simpl.
  apply emit_all_keeps_label. rewrite emit_label by done. simpl.
  apply lookup_insert_eq.
Qed.

End WriterFacts.

Section GenFacts.

Import Asm.

(** ** Runs of [Gen] that count no error *)








(** The first loop ends its symbol list with the one [Eof] symbol. *)
Lemma lex_loop_shape (fuel : nat) (acc : list Symbol) (d : Diag) (lc : Z) (r : string)
    (lx : Lexed) :
  lex_loop fuel acc d lc r = Returns (lx, true) →
  Forall (λ s, Typ s ≠ Eof) acc →
  ∃ body e, lx_sym lx = body ++ [e] ∧ Typ e = Eof ∧ Forall (λ s, Typ s ≠ Eof) body.
Proof.
  revert acc d lc r. induction fuel as [|fuel IH]; intros acc d lc r H Hacc;
    simpl in H; [done|].
  destruct (Read lc r) as [[[[s e] lc'] r']|p]; [|done].
  case_decide; [done|].
  case_decide as Heof.
  - injection H as <-. simpl. exists acc, s.
    destruct (decide (Typ s ≠ -1)) as [Hm|Hm]; [done|].
    exfalso. apply Hm. rewrite Heof. done.
  - eapply IH; [done|]. case_decide; [|done].
    apply Forall_app. split; [done|]. by constructor.
Qed.

(** ** Fuel

    The two loops of [Gen] are run on fuel. The first loop never needs more
    rounds than the source has bytes, plus one. The second loop either
    breaks out within one round per symbol or never does: when the reader
    runs past the last symbol, which happens when the final [Eof] symbol is
    consumed as an operand, every further round reports
    [bad argument count] and tries again. *)

Lemma asm_loop_S (fuel : nat) (rd : Reader) (w : Writer) (d : Diag) :
  asm_loop (S fuel) rd w d =
    match asm_step rd w d with
    | inl r => Returns r
    | inr (rd', w', d') => asm_loop fuel rd' w' d'
    end.
Proof.
  cbn [asm_loop]. unfold asm_step. destruct (Expect Id rd) as [[s e] rd1].
  repeat case_decide; try done; destruct e; try done.
  - destruct (inst !! Val s); [|done]. by destruct (params_loop _ _ _ _) as [[? ?] ?].
  - by destruct (WriteSymbol s w) as [? []].
Qed.

Lemma Expect_reader (t : Z) (rd : Reader) (s : Symbol) (e : option string) (rd' : Reader) :
  Expect t rd = (s, e, rd') →
  sym rd' = sym rd ∧
  match sym rd !! nsym rd with
  | Some _ => nsym rd' = S (nsym rd)
  | None => rd' = rd ∧ s = Symbol0 ∧ is_Some e
  end.
Proof.
  unfold Expect, Reader_Read. destruct (sym rd !! nsym rd) as [x|].
  - repeat case_decide; by intros [= <- <- <-].
  - intros [= <- <- <-]. eauto.
Qed.

Lemma params_loop_reader (ps : list Z) (rd : Reader) (w : Writer) (d : Diag)
    (rd' : Reader) (w' : Writer) (d' : Diag) :
  params_loop ps rd w d = (rd', w', d') →
  sym rd' = sym rd ∧ (nsym rd ≤ nsym rd')%nat.
Proof.
  revert rd w d. induction ps as [|t ps IH]; intros rd w d H; simpl in H.
  { by injection H as <- <- <-. }
  destruct (Expect t rd) as [[s e] rd1] eqn:HE.
  apply Expect_reader in HE as [Hsym Hn].
  assert (nsym rd ≤ nsym rd1)%nat as Hle.
  { destruct (sym rd !! nsym rd); [lia|]. by destruct Hn as [-> _]. }
  destruct e as [e|]; [|destruct (WriteSymbol s w) as [w1 [e|]]];
    apply IH in H as [-> ?]; split; (done || lia).
Qed.

(** A round that does not break out moves the reader forward, unless the
    reader is past the last symbol: then the round changes nothing but the
    diagnostics. *)
Lemma asm_step_progress (rd : Reader) (w : Writer) (d : Diag)
    (rd' : Reader) (w' : Writer) (d' : Diag) :
  asm_step rd w d = inr (rd', w', d') →
  sym rd' = sym rd ∧
  match sym rd !! nsym rd with
  | Some _ => (nsym rd < nsym rd')%nat
  | None => rd' = rd ∧ w' = w
  end.
Proof.
  unfold asm_step. destruct (Expect Id rd) as [[s e] rd1] eqn:HE.
  apply Expect_reader in HE as [Hsym Hn].
  case_decide; [done|].
  destruct (sym rd !! nsym rd) as [x|].
  - destruct e as [e|]; [intros [= <- <- <-]; split; [done|lia]|].
    case_decide.
    + destruct (inst !! Val s) as [f|]; [|intros [= <- <- <-]; split; [done|lia]].
      intros [= HP]. apply params_loop_reader in HP as [-> ?]. split; [done|lia].
    + destruct (WriteSymbol s w) as [w1 [m|]]; intros [= <- <- <-]; split; (done || lia).
  - destruct Hn as (-> & -> & [m ->]). by intros [= <- <- <-].
Qed.

(** Past the last symbol the second loop does not terminate. *)
Lemma asm_loop_hangs (fuel : nat) (rd : Reader) (w : Writer) (d : Diag) :
  sym rd !! nsym rd = None → asm_loop fuel rd w d = OutOfFuel.
Proof.
  revert d. induction fuel as [|fuel IH]; intros d Hend; [done|].
  rewrite asm_loop_S. destruct (asm_step rd w d) as [r|[[rd' w'] d']] eqn:Hstep.
  - unfold asm_step, Expect, Reader_Read in Hstep. rewrite Hend in Hstep.
    by case_decide.
  - apply asm_step_progress in Hstep as [_ Hsame]. rewrite Hend in Hsame.
    destruct Hsame as [-> ->]. by apply IH.
Qed.

(** With more fuel than symbols left, running out of fuel means that the
    loop does not terminate on any fuel. *)
Lemma asm_loop_fuel_adequate (fuel : nat) (rd : Reader) (w : Writer) (d : Diag) :
  (length (sym rd) - nsym rd < fuel)%nat → asm_loop fuel rd w d = OutOfFuel →
  ∀ fuel', asm_loop fuel' rd w d = OutOfFuel.
Proof.
  revert rd w d. induction fuel as [|fuel IH]; intros rd w d Hfuel H fuel'; [lia|].
  destruct (sym rd !! nsym rd) as [x|] eqn:Hx; [|by apply asm_loop_hangs].
  destruct fuel' as [|fuel']; [done|].
  rewrite asm_loop_S in *. destruct (asm_step rd w d) as [r|[[rd' w'] d']] eqn:Hstep;
    [done|].
  apply asm_step_progress in Hstep as [Hsym Hn]. rewrite Hx in Hn.
  apply lookup_lt_Some in Hx. apply IH; [|done]. rewrite Hsym. lia.
Qed.

Lemma skip_line_length (r : string) : (String.length (skip_line r) ≤ String.length r)%nat.
Proof. induction r as [|c r IH]; simpl; [done|]. case_decide; lia. Qed.

Lemma ReadToken_shrinks (b : string) (lc : Z) (r t : string) (e : option string)
    (lc' : Z) (r' : string) :
  ReadToken b lc r = (t, e, lc', r') → (String.length r' ≤ String.length r)%nat.
Proof.
  revert b lc. induction r as [|c r IH]; intros b lc H; simpl in H.
  { by injection H as <- <- <- <-. }
  destruct (IsSpace c); [injection H as <- <- <- <-; simpl; lia|].
  apply IH in H. simpl. lia.
Qed.

(** Unless it reports [Eof], [Read] consumes at least one byte. *)
Lemma Read_loop_shrinks (sy : Symbol) (lc : Z) (r : string)
    (s : Symbol) (e : option string) (lc' : Z) (r' : string) :
  Typ sy = -1 → Read_loop sy lc r = inl (s, e, lc', r') →
  Typ s = Eof ∨ (String.length r' < String.length r)%nat.
Proof.
  intros Hsy. revert lc. induction r as [|c r IH]; intros lc H; cbn [Read_loop] in H.
  { injection H as <- <- <- <-. by left. }
  set (lc1 := if decide (c = "010"%char) then lc + 1 else lc) in *.
  case_decide.
  { injection H as <- <- <- <-. right. pose proof (skip_line_length r). simpl. lia. }
  destruct (IsSpace c).
  { apply IH in H as [?|?]; [by left|right; simpl; lia]. }
  destruct (IsGraphic c); cbn [negb] in H.
  2:{ injection H as <- <- <- <-. right. simpl. lia. }
  destruct (syms c) as [t|].
  { destruct (ReadToken _ lc1 r) as [[[tok [m|]] lc2] r2] eqn:HT;
      injection H as <- <- <- <-; [by left|].
    right. apply ReadToken_shrinks in HT. simpl. lia. }
  destruct (bool_decide (Typ sy = -1) && IsLetter c) eqn:Hlet.
  2:{ apply IH in H as [?|?]; [by left|right; simpl; lia]. }
  apply andb_prop in Hlet as [_ Hlet].
  destruct (letter_class _ Hlet) as (Hsp & _).
  simpl in H. rewrite Hsp in H.
  destruct (ReadToken _ _ r) as [[[tok [m|]] lc2] r2] eqn:HT.
  { injection H as <- <- <- <-. by left. }
  apply ReadToken_shrinks in HT.
  destruct (last_is_colon tok) as [[]|]; [| |done];
    injection H as <- <- <- <-; right; simpl; lia.
Qed.

(** The first loop never runs out of fuel that exceeds the length of the
    source, and collects at most one symbol per round. *)
Lemma lex_loop_total (fuel : nat) (acc : list Symbol) (d : Diag) (lc : Z) (r : string) :
  (String.length r < fuel)%nat → lex_loop fuel acc d lc r ≠ OutOfFuel.
Proof.
  revert acc d lc r. induction fuel as [|fuel IH]; intros acc d lc r Hfuel; [lia|].
  simpl. destruct (Read lc r) as [[[[s e] lc'] r']|p] eqn:HR; [|done].
  unfold Read in HR.
  apply Read_loop_shrinks in HR as [Heof|Hlt]; [| |reflexivity].
  - repeat case_decide; done.
  - repeat case_decide; try done; apply IH; lia.
Qed.

Lemma lex_loop_more_fuel (fuel k : nat) (acc : list Symbol) (d : Diag) (lc : Z) (r : string) :
  lex_loop fuel acc d lc r ≠ OutOfFuel →
  lex_loop (fuel + k) acc d lc r = lex_loop fuel acc d lc r.
Proof.
  revert acc d lc r. induction fuel as [|fuel IH]; intros acc d lc r H; [done|].
  simpl in *. destruct (Read lc r) as [[[[s e] lc'] r']|p]; [|done].
  repeat case_decide; try done; by apply IH.
Qed.

Lemma lex_loop_count (fuel : nat) (acc : list Symbol) (d : Diag) (lc : Z) (r : string)
    (lx : Lexed) (b : bool) :
  lex_loop fuel acc d lc r = Returns (lx, b) →
  (length (lx_sym lx) ≤ length acc + String.length r + 1)%nat.
Proof.
  revert acc d lc r. induction fuel as [|fuel IH]; intros acc d lc r H; simpl in H;
    [done|].
  destruct (Read lc r) as [[[[s e] lc'] r']|p] eqn:HR; [|done].
  unfold Read in HR.
  apply Read_loop_shrinks in HR as [Heof|Hlt]; [| |reflexivity].
  all: repeat case_decide; try done; simplify_eq/=; rewrite ?length_app; simpl;
    try lia.
  all: apply IH in H; rewrite ?length_app in H; simpl in H; lia.
Qed.

(** With more fuel than the source has bytes plus one, a run of [Gen] that
    runs out of fuel does not terminate on any fuel. *)
Lemma Gen_fuel_adequate `{RangeOrder} `{IoWriter W}
    (fuel : nat) (lc : Z) (src : string) (f : W) :
  (String.length src + 1 < fuel)%nat → Gen fuel lc src f = OutOfFuel →
  ∀ fuel', Gen fuel' lc src f = OutOfFuel.
Proof.
  intros Hfuel Hout fuel'. unfold Gen in *.
  pose proof (lex_loop_total fuel [] (mkDiag 0 []) lc src ltac:(lia)) as Htot.
  destruct (lex_loop fuel' [] _ lc src) as [[lx' b']|p'|] eqn:Hlex'; [| |done].
  2:{ assert (lex_loop fuel [] (mkDiag 0 []) lc src = Panics p') as Hp.
      { destruct (decide (fuel ≤ fuel')%nat).
        - replace fuel' with (fuel + (fuel' - fuel))%nat in Hlex' by lia.
          by rewrite lex_loop_more_fuel in Hlex'.
        - replace fuel with (fuel' + (fuel - fuel'))%nat by lia.
          rewrite lex_loop_more_fuel; [done|]. by rewrite Hlex'. }
      by rewrite Hp in Hout. }
  assert (lex_loop fuel [] (mkDiag 0 []) lc src = Returns (lx', b')) as Hlex.
  { destruct (decide (fuel ≤ fuel')%nat).
    - replace fuel' with (fuel + (fuel' - fuel))%nat in Hlex' by lia.
      by rewrite lex_loop_more_fuel in Hlex'.
    - replace fuel with (fuel' + (fuel - fuel'))%nat by lia.
      rewrite lex_loop_more_fuel; [done|]. by rewrite Hlex'. }
  rewrite Hlex in Hout. destruct b'; [|done].
  apply lex_loop_count in Hlex. simpl in Hlex.
  destruct (asm_loop fuel _ NewWriter _) as [[w d]|p|] eqn:Hasm.
  - repeat case_decide; try done. by destruct (Write w f) as [[[? []] ?]|].
  - done.
  - rewrite (asm_loop_fuel_adequate fuel); [done| |done]. simpl. lia.
Qed.

(** The source [add %0] is one: the two missing operands consume the
    [Eof] symbol and the reader's end, and the loop spins. *)
Lemma missing_operand_hangs (fuel : nat) :
  Gen fuel 0 (lines ["add %0"%string]) ([] : list Z) = OutOfFuel.
Proof.
  apply (Gen_fuel_adequate 10); [simpl; lia|]. vm_compute. reflexivity.
Qed.

(** ** How many diagnostics are printed *)

Lemma werr_ok (s : Symbol) (m : string) (d : Diag) : Diag_ok d → Diag_ok (werr s m d).
Proof.
  intros [H0 Hlen]. unfold Diag_ok, werr, ErrThreshold. simpl.
  case_decide; rewrite ?length_app; simpl; lia.
Qed.

Lemma params_loop_ok (ps : list Z) (rd : Reader) (w : Writer) (d : Diag)
    (rd' : Reader) (w' : Writer) (d' : Diag) :
  params_loop ps rd w d = (rd', w', d') → Diag_ok d → Diag_ok d'.
Proof.
  revert rd w d. induction ps as [|t ps IH]; intros rd w d H Hd; simpl in H.
  { by injection H as <- <- <-. }
  destruct (Expect t rd) as [[s [e|]] rd1].
  - eapply IH; [done|]. by apply werr_ok.
  - destruct (WriteSymbol s w) as [w1 [e|]]; (eapply IH; [done|]);
      [by apply werr_ok|done].
Qed.

Lemma asm_loop_ok (fuel : nat) (rd : Reader) (w : Writer) (d : Diag)
    (w' : Writer) (d' : Diag) :
  asm_loop fuel rd w d = Returns (w', d') → Diag_ok d → Diag_ok d'.
Proof.
  revert rd w d. induction fuel as [|fuel IH]; intros rd w d H Hd; cbn [asm_loop] in H; [done|].
  destruct (Expect Id rd) as [[s e] rd1].
  case_decide; [by simplify_eq|].
  destruct e as [m|]; [eapply IH; [done|]; by apply werr_ok|].
  case_decide.
  - destruct (inst !! Val s) as [f|]; [|eapply IH; [done|]; by apply werr_ok].
    destruct (params_loop _ _ _ _) as [[rd2 w2] d2] eqn:HP.
    eapply IH; [done|]. by eapply params_loop_ok.
  - destruct (WriteSymbol s w) as [w1 [m|]]; (eapply IH; [done|]);
      [by apply werr_ok|done].
Qed.

(** The first loop gives up exactly when the ninth error is counted. *)
Lemma lex_loop_ok (fuel : nat) (acc : list Symbol) (d : Diag) (lc : Z) (r : string)
    (lx : Lexed) (b : bool) :
  lex_loop fuel acc d lc r = Returns (lx, b) → Diag_ok d → errc d ≤ 8 →
  Diag_ok (lx_diag lx) ∧ if b then errc (lx_diag lx) ≤ 8 else errc (lx_diag lx) = 9.
Proof.
  revert acc d lc r. induction fuel as [|fuel IH]; intros acc d lc r H Hd Hle;
    simpl in H; [done|].
  destruct (Read lc r) as [[[[s e] lc'] r']|p]; [|done].
  set (d1 := match e with Some m => werr s m d | None => d end) in *.
  assert (Diag_ok d1 ∧ errc d1 ≤ 9) as [Hd1 Hle1].
  { unfold d1. destruct e; [|split; [done|lia]].
    split; [by apply werr_ok|]. simpl. lia. }
  unfold ErrThreshold in H.
  case_decide; [injection H as <- <-; simpl; split; [done|lia]|].
  case_decide; [injection H as <- <-; simpl; split; [done|lia]|].
  eapply IH; [done..|lia].
Qed.

(** X29. The four ways [Gen] returns, with the number of diagnostics
    printed before the summary: all of them up to eight errors, nine from
    the ninth error on. *)
Lemma Gen_error_summary `{RangeOrder} `{IoWriter W}
    (fuel : nat) (lc : Z) (src : string) (f : W) (g : Generated W) :
  Gen fuel lc src f = Returns g →
  g_err g = None
  ∨ (g_err g = Some "invalid file"%string ∧ length (g_elog g) = 9%nat)
  ∨ (∃ n, 0 < n ≤ 8 ∧ g_err g = Some (dec n +:+ " errors") ∧
          Z.of_nat (length (g_elog g)) = n)
  ∨ (∃ n, 8 < n ∧ g_err g = Some (dec n +:+ " errors (" +:+ dec 8 +:+ " shown)") ∧
          length (g_elog g) = 9%nat).
Proof.
  intros Hgen. unfold Gen in Hgen.
  assert (Diag_ok (mkDiag 0 [])) as Hd0 by (split; simpl; lia).
  destruct (lex_loop fuel [] _ lc src) as [[lx b]|p|] eqn:Hlex; [|done..].
  destruct (lex_loop_ok _ _ _ _ _ _ _ Hlex Hd0) as [[Hlx0 Hlxlen] Hb];
    [simpl; lia|].
  destruct b.
  2:{ injection Hgen as <-. right. left. simpl. split; [done|]. lia. }
  destruct (asm_loop fuel _ NewWriter _) as [[w d]|p|] eqn:Hasm; [|done..].
  destruct (asm_loop_ok _ _ _ _ _ _ Hasm) as [Hd Hdlen]; [done|].
  unfold ErrThreshold in Hgen. repeat case_decide.
  - injection Hgen as <-. simpl. do 3 right. exists (errc d). split_and!; [lia|done|lia].
  - injection Hgen as <-. simpl. right. right. left. exists (errc d).
    split_and!; [lia..|done|lia].
  - left. destruct (Write w f) as [[[n [m|]] f']|p]; by simplify_eq/=.
Qed.


End GenFacts.

(** * Claims about the assembler *)

Section AsmClaims.

Import Asm.

(** [strconv.ParseInt(s, 16, 32)] yields signed 32-bit values only. *)
Lemma ParseInt_32_signed (s : string) (v : Z) :
  ParseInt s 16 32 = Some v → - 2 ^ 31 ≤ v < 2 ^ 31.
Proof.
  unfold ParseInt. destruct s as [|c s]; [done|].
  destruct (ParseUint _ 16 32) as [un|] eqn:Hun; [|done].
  assert (0 ≤ un) as Hpos.
  { unfold ParseUint in Hun. case_decide; [done|].
    assert (∀ t n r, 0 ≤ n → parse_digits 16 (2 ^ 32 - 1) n t = Some r → 0 ≤ r) as Hpd.
    { induction t as [|a t IH]; intros n r Hn Hr; simpl in Hr; [by simplify_eq|].
      unfold digit_val in Hr.
      repeat case_decide; simplify_eq; (eapply IH; [|done]); lia. }
    eapply Hpd; [|done]. lia. }
  simpl. destruct (bool_decide (c = "-"%char)); simpl;
    repeat case_bool_decide; intros; simplify_eq; lia.
Qed.

(** C5 (defect in the code). A source of nine lines, each the unknown
    instruction [foo], makes nine errors: [Gen] returns the summary
    [9 errors (8 shown)] but has printed nine diagnostics, one per line,
    and not eight. *)
Theorem nine_errors_print_nine_diagnostics :
  ∃ g, Gen 20 0 (lines (replicate 9 "foo"%string)) ([] : list Z) = Returns g ∧
       g_err g = Some "9 errors (8 shown)"%string ∧
       length (g_elog g) = 9%nat ∧
       last (g_elog g) = Some ("9: bad instruction 'foo'" +:+ nl) ∧
       g_sink g = [].
Proof. eexists. split; [vm_compute; reflexivity|]. by vm_compute. Qed.

(** C6 (defect in the code). The address literal [ffffffff] is refused:
    [ParseInt] with 32 bits is signed, so [WriteSymbol] reports
    [bad address 'ffffffff'] and emits nothing, and assembling
    [lr $ffffffff %0] ends in [1 errors] with no object written. The
    largest literal accepted is [7fffffff]. *)
Theorem address_ffffffff_is_rejected :
  (∀ ln w, WriteSymbol (mkSymbol Addr "ffffffff" ln) w
           = (w, Some "bad address 'ffffffff'"%string)) ∧
  (∃ g, Gen 10 0 (lines ["lr $ffffffff %0"%string]) ([] : list Z) = Returns g ∧
        g_err g = Some "1 errors"%string ∧
        g_elog g = ["0: bad address 'ffffffff'" +:+ nl] ∧
        g_sink g = []) ∧
  ParseInt "7fffffff" 16 32 = Some 2147483647 ∧
  ParseInt "80000000" 16 32 = None.
Proof.
  split_and!; [done| |done..].
  eexists. split; [vm_compute; reflexivity|]. by vm_compute.
Qed.




(** C9. Whenever a source assembles without error into a healthy sink,
    the same source with a sink on which the write of the header, or the
    write of the code after it, fails with [e] still makes [Gen] return no
    error: [e] is only printed to the diagnostic writer. *)
Theorem sink_failure_is_not_returned `{RangeOrder} `{IoWriter W}
    (fuel : nat) (lc : Z) (src : string) (g0 : Generated (list Z))
    (f f1 f' : W) (n m : Z) (e : string) :
  Gen fuel lc src ([] : list Z) = Returns g0 →
  g_err g0 = None → g_elog g0 = [] →
  io_write Hdr f = (n, Some e, f') ∨
  (io_write Hdr f = (n, None, f1) ∧
   io_write (drop 4 (g_sink g0)) f1 = (m, Some e, f')) →
  Gen fuel lc src f = Returns (mkGenerated (g_sym g0) None [e +:+ nl] f' (g_lc g0)).
Proof.
  intros Hgen Herr Hlog Hfail. unfold Gen in *.
  destruct (lex_loop fuel [] _ lc src) as [[lx []]|p|]; simplify_eq/=.
  destruct (asm_loop fuel _ NewWriter _) as [[w d]|p|]; simplify_eq/=.
  repeat case_decide; simplify_eq/=.
  unfold Write in *.
  destruct (patch_all _ _ _) as [b|j|p]; simplify_eq/=.
  - destruct Hfail as [->|[-> Hcode]]; [by rewrite Hlog|].
    rewrite drop_0 in Hcode. rewrite Hcode. by rewrite Hlog.
  - by destruct (elog d).
Qed.

Lemma sink_failure_is_not_returned_witness :
  Gen 10 0 (lines ["exit"%string]) ClosedFile
  = Returns (mkGenerated [mkSymbol Id "exit" 1; mkSymbol Eof "" 0] None
               ["file already closed" +:+ nl] ClosedFile 1).
Proof.
  apply (sink_failure_is_not_returned 10 0 (lines ["exit"%string])
           (mkGenerated [mkSymbol Id "exit" 1; mkSymbol Eof "" 0] None []
              [72; 89; 80; 0; 16] 1)
           ClosedFile ClosedFile ClosedFile 0 0 "file already closed").
  - vm_compute. reflexivity.
  - reflexivity.
  - reflexivity.
  - left. reflexivity.
Defined.

(** C10. When any source, whatever it ends in, is followed by a last
    token that no space byte ends, [Read] turns that token into the [Eof]
    symbol, and [Gen] behaves exactly as on the source without it: same
    symbols, same diagnostics, same bytes in the sink, same result. *)
Theorem unterminated_last_token_is_dropped `{RangeOrder} `{IoWriter W}
    (fuel : nat) (lc : Z) (src tok : string) (f : W) :
  unterminated_token tok = true →
  Read lc tok = inl (mkSymbol Eof "" 0, None, lc, EmptyString) ∧
  Gen fuel lc (src +:+ tok) f = Gen fuel lc src f.
Proof.
  intros Htok. split.
  - unfold Read. by rewrite Read_loop_token.
  - unfold Gen. by rewrite lex_loop_app.
Qed.

Lemma unterminated_last_token_is_dropped_witness :
  Read 0 "exit" = inl (mkSymbol Eof "" 0, None, 0, EmptyString) ∧
  Gen 5 0 ("nop " +:+ "exit") ([] : list Z) = Gen 5 0 "nop " ([] : list Z).
Proof.
  apply (unterminated_last_token_is_dropped 5 0 "nop " "exit" ([] : list Z)).
  reflexivity.
Defined.

(** The one-line source [nop exit] without a final line feed: the [exit]
    is dropped and only the [nop] is emitted. *)
Lemma last_token_of_a_line_is_dropped :
  Gen 5 0 "nop exit" ([] : list Z)
  = Returns (mkGenerated [mkSymbol Id "nop" 0; mkSymbol Eof "" 0] None []
               (Hdr ++ [OpNop]) 0).
Proof. vm_compute. reflexivity. Qed.

(** The source [exit] without a final line feed assembles, without any
    diagnostic, to the header alone; with the line feed the opcode byte
    follows the header. *)
Lemma exit_without_newline_emits_nothing :
  Gen 5 0 "exit" ([] : list Z)
  = Returns (mkGenerated [mkSymbol Eof "" 0] None [] Hdr 0) ∧
  Gen 5 0 (lines ["exit"%string]) ([] : list Z)
  = Returns (mkGenerated [mkSymbol Id "exit" 1; mkSymbol Eof "" 0] None []
               (Hdr ++ [OpExit]) 1).
Proof. split; vm_compute; reflexivity. Qed.

End AsmClaims.

(** * The two tools together *)

Section Scenarios.

Import Asm Cpu.

(** The counting loop of the specification: assembled, loaded and run for
    34 error-free steps, it halts with 10 in register 0. *)
Lemma counting_loop_halts_with_10 :
  ∃ g c0 c,
    Gen 50 0 (lines ["lr $00 %0"; "lr $01 %1"; "lr $0a %2"; "loop:";
                     "add %0 %1 %0"; "sub %2 %1 %2"; "bne %2 %3 loop";
                     "exit"]%string) ([] : list Z) = Returns g ∧
    g_err g = None ∧ New (g_sink g) = (c0, None) ∧
    steps 34 c0 = Some c ∧ State c = false ∧ reg c !! 0%nat = Some 10.
Proof.
  eexists _, _, _. split; [vm_compute; reflexivity|].
  split; [reflexivity|]. split; [vm_compute; reflexivity|].
  split; [vm_compute; reflexivity|]. by vm_compute.
Qed.

(** [call f / exit / f: jr %3]: the call, the return and the [exit] behind
    the call run without error, and the machine halts. *)
Lemma call_and_return_halts :
  ∃ g c0 c,
    Gen 20 0 (lines ["call f"; "exit"; "f:"; "jr %3"]%string) ([] : list Z)
      = Returns g ∧
    g_sink g = Hdr ++ [15; 6; 0; 0; 0; 16; 14; 3] ∧
    New (g_sink g) = (c0, None) ∧
    steps 3 c0 = Some c ∧ State c = false ∧ Cpu.pc c = 6.
Proof.
  eexists _, _, _. split; [vm_compute; reflexivity|].
  split; [reflexivity|]. split; [vm_compute; reflexivity|].
  split; [vm_compute; reflexivity|]. by vm_compute.
Qed.

End Scenarios.

(** * Further properties of the virtual machine *)

Section MachineProperties.

Import Cpu.

(** Closes [evolves c c'] when [c'] is [c] with other fields set. *)
Ltac evolves_same :=
  unfold evolves; cbn; split_and!; [done..|first [by left|by right]|done].

Lemma evolves_refl (c : Cpu) : evolves c c.
Proof. evolves_same. Qed.

Lemma evolves_trans (c1 c2 c3 : Cpu) : evolves c1 c2 → evolves c2 c3 → evolves c1 c3.
Proof.
  intros (Hb & Hr & Hm & Hf & Ho) (Hb' & Hr' & Hm' & Hf' & Ho').
  unfold evolves. split_and!; try congruence.
  - destruct Hf as [Hf|Hf], Hf' as [Hf'|Hf']; rewrite Hf', ?Hf; auto.
    right. by rewrite <- Z.lor_assoc.
  - by etrans.
Qed.

Lemma evolving_ret {A} (a : A) : evolving (mret a).
Proof. intros c b c' [= _ <-]. apply evolves_refl. Qed.

Lemma evolving_bind {A B} (m : M A) (f : A → M B) :
  evolving m → (∀ a, evolving (f a)) → evolving (m ≫= f).
Proof.
  intros Hm Hf c b c' H. apply bind_Done in H as (a & c1 & H1 & H2).
  eapply evolves_trans; [by eapply Hm|by eapply Hf].
Qed.

Lemma evolving_run {A} (m : M A) (c : Cpu) (a : A) (c' : Cpu) :
  evolving m → m c = Done a c' → evolves c c'.
Proof. intros Hm. apply Hm. Qed.

Lemma evolving_get : evolving get.
Proof. intros c b c' [= _ <-]. apply evolves_refl. Qed.

Lemma evolving_panic {A} (p : panic_kind) : evolving (panic p : M A).
Proof. by intros c b c'. Qed.

Lemma evolving_modify (f : Cpu → Cpu) : (∀ c, evolves c (f c)) → evolving (modify f).
Proof. intros Hf c b c' [= _ <-]. apply Hf. Qed.

Lemma evolves_latch (c : Cpu) (e : option string) :
  evolves c (set_flags (Z.lor (flags c) 1) (set_err e c)).
Proof. by unfold evolves; split_and!; [..|right|]. Qed.

Lemma evolving_read (n : nat) : evolving (read n).
Proof.
  intros c bs c' H. unfold read in H.
  repeat case_decide; injection H as <- <-; evolves_same.
Qed.

Lemma evolving_checkReg (r : Z) : evolving (checkReg r).
Proof.
  unfold checkReg. repeat (apply evolving_bind; [|intros ?]);
    try apply evolving_get; try apply evolving_ret.
  case_decide; [|apply evolving_ret].
  apply evolving_modify. intros c. apply evolves_latch.
Qed.

Lemma evolving_readReg (r : Z) : evolving (readReg r).
Proof.
  unfold readReg. apply evolving_bind; [apply evolving_checkReg|].
  intros [e|]; [apply evolving_ret|].
  intros c v c' H. apply bind_Done in H as (c0 & c1 & [= <- <-] & H).
  destruct (reg c !! _); [|done]. injection H as <- <-. apply evolves_refl.
Qed.

Lemma evolving_writeReg (r v : Z) : evolving (writeReg r v).
Proof.
  unfold writeReg. apply evolving_bind; [apply evolving_checkReg|].
  intros [e|]; [apply evolving_ret|].
  intros c u c' H. apply bind_Done in H as (c0 & c1 & [= <- <-] & H).
  case_decide; [|done]. injection H as _ <-.
  unfold evolves; cbn; split_and!; [done|by rewrite length_insert|done|by left|done].
Qed.

Lemma evolving_readImm (a : Z) : evolving (readImm a).
Proof.
  intros c v c' H. unfold readImm in H.
  apply bind_Done in H as (c0 & c1 & [= <- <-] & H).
  repeat case_decide; try done; [by injection H as <- <-; apply evolves_refl|].
  repeat case_match; try done. injection H as <- <-. apply evolves_refl.
Qed.

Lemma evolving_storeByte (i v : Z) : evolving (storeByte i v).
Proof.
  intros c u c' H. unfold storeByte in H.
  apply bind_Done in H as (c0 & c1 & [= <- <-] & H).
  case_decide; [|done]. injection H as _ <-.
  unfold evolves; cbn; split_and!; [done|done|by rewrite length_insert|by left|done].
Qed.

Lemma evolving_writeImm (a v : Z) : evolving (writeImm a v).
Proof.
  intros c e c' H. unfold writeImm in H.
  apply bind_Done in H as (c0 & c1 & [= <- <-] & H).
  case_decide; [by injection H as <- <-; apply evolves_refl|].
  refine (evolving_run _ _ _ _ _ H).
  repeat (apply evolving_bind; [apply evolving_storeByte|intros ?]).
  apply evolving_ret.
Qed.

Lemma evolving_jump (t : Z) : evolving (jump t).
Proof.
  unfold jump. repeat (apply evolving_bind; [|intros ?]); try apply evolving_ret;
    apply evolving_modify; intros c; evolves_same.
Qed.

(** The body of the handler of [p]: the output grows by one code point. *)
Lemma evolving_print (r : Z) :
  evolving (c ← get;
            match reg c !! Z.to_nat r with
            | Some v => modify (set_stdout (stdout c ++ [v]));; mret 1
            | None => panic (IndexOutOfRange r (Z.of_nat (length (reg c))))
            end).
Proof.
  intros c n c' H. apply bind_Done in H as (c0 & c1 & [= <- <-] & H).
  destruct (reg c !! _); [|done]. injection H as _ <-.
  unfold evolves; cbn; split_and!; [done..|by left|by apply prefix_app_r].
Qed.

(** Builds an [evolving] fact for a handler body. *)
Ltac evolving_tac :=
  lazymatch goal with
  | |- evolving (mbind (λ c, match reg c !! _ with _ => _ end) get) =>
      apply evolving_print
  | |- evolving (mbind _ _) =>
      apply evolving_bind; [evolving_tac | intros ?; evolving_tac]
  | |- evolving (mret _) => apply evolving_ret
  | |- evolving get => apply evolving_get
  | |- evolving (read _) => apply evolving_read
  | |- evolving (readReg _) => apply evolving_readReg
  | |- evolving (writeReg _ _) => apply evolving_writeReg
  | |- evolving (readImm _) => apply evolving_readImm
  | |- evolving (writeImm _ _) => apply evolving_writeImm
  | |- evolving (jump _) => apply evolving_jump
  | |- evolving (modify _) => apply evolving_modify; intros ?; evolves_same
  | |- evolving (panic _) => apply evolving_panic
  | |- evolving (match ?x with _ => _ end) => destruct x; evolving_tac
  | |- _ => idtac
  end.

Lemma evolving_with_operands (n : nat) (k : list Z → M Z) :
  (∀ bs, evolving (k bs)) → evolving (with_operands n k).
Proof. intros Hk. unfold with_operands. evolving_tac. apply Hk. Qed.

Lemma evolving_branch (taken : Z → Z → bool) : evolving (branch taken).
Proof.
  unfold branch. apply evolving_with_operands. intros bs. evolving_tac.
Qed.

Lemma evolving_ops (op : Z) (f : M Z) : ops op = Some f → evolving f.
Proof.
  unfold ops. repeat case_decide; intros [= <-]; clear;
    try apply evolving_branch;
    try (apply evolving_with_operands; intros bs);
    evolving_tac.
Qed.

Lemma Step_evolves (c : Cpu) (e : option string) (c' : Cpu) :
  Step c = Done e c' → evolves c c'.
Proof.
  intros H. refine (evolving_run _ _ _ _ _ H).
  unfold Step. apply evolving_bind; [apply evolving_read|intros bs].
  apply evolving_bind; [apply evolving_get|intros c0].
  destruct (err c0); [apply evolving_ret|].
  apply evolving_bind; [evolving_tac|intros _].
  destruct (ops _) as [f|] eqn:Hops; [|evolving_tac].
  apply evolving_bind; [by eapply evolving_ops|intros n]. evolving_tac.
Qed.

(** X1. Whatever [Step] returns, it leaves the code it runs and the sizes
    of the register file and of the memory as they were, changes [flags]
    at most by setting bit 0, and only appends to the output. *)
Theorem Step_never_undoes (c : Cpu) (e : option string) (c' : Cpu) :
  Step c = Done e c' →
  buf_s c' = buf_s c ∧ length (reg c') = length (reg c) ∧
  length (mem c') = length (mem c) ∧
  (flags c' = flags c ∨ flags c' = Z.lor (flags c) 1) ∧
  stdout c `prefix_of` stdout c'.
Proof. apply Step_evolves. Qed.

Lemma Step_never_undoes_witness :
  let c := boot [Asm.OpP; 0; Asm.OpExit] in
  ∃ c', Step c = Done None c' ∧ buf_s c' = buf_s c ∧ stdout c' = [0].
Proof.
  intros c.
  assert (∃ c', Step c = Done None c') as [c' H] by (eexists; vm_compute; reflexivity).
  exists c'. split; [done|].
  destruct (Step_never_undoes c None c' H) as (Hb & _).
  split; [done|]. revert H. vm_compute. by intros [= <-].
Defined.

(** ** What single instructions do *)

(** Sums of program counter increments, as [Step] performs them. *)
Lemma wrap32_add_l (x y : Z) : wrap32 (wrap32 x + y) = wrap32 (x + y).
Proof. unfold wrap32. by rewrite Z.add_mod_idemp_l. Qed.

Lemma pc_after (p n : Z) : wrap32 (wrap32 (p + 1) + n) = wrap32 (p + (1 + n)).
Proof. rewrite wrap32_add_l. f_equal. lia. Qed.

(** Closes an equation between two results of [Step] whose states are
    built by different sequences of field updates. *)
Ltac same_state :=
  f_equal;
  unfold moved, set_pc, set_buf_i, set_reg, set_mem, set_flags, set_err, set_stdout;
  cbn; f_equal; first [done | lia | f_equal; lia].

(** The operands of an instruction, once the opcode byte is consumed. *)
Lemma operands_ok (n : nat) (k : list Z → M Z) (c : Cpu) (op : Z) (bs rest : list Z) :
  0 ≤ buf_i c → err c = None →
  drop (Z.to_nat (buf_i c)) (buf_s c) = op :: bs ++ rest → length bs = n → n ≠ 0%nat →
  with_operands n k (set_pc (wrap32 (pc c + 1)) (set_buf_i (buf_i c + 1) c)) =
  k bs (set_buf_i (buf_i c + 1 + Z.of_nat n) (set_pc (wrap32 (pc c + 1)) c)).
Proof.
  intros Hi Herr Hdrop Hlen Hn.
  erewrite (with_operands_ok n _ _ bs rest); try done.
  - cbn. lia.
  - cbn. by apply (drop_next _ 1 _ [op]).
Qed.

(** X2. [add] and [sub] on valid registers: the destination receives the
    sum or the difference modulo 2^32, the operands being read before the
    destination is written; nothing else changes but the reader and [pc],
    which advance by the four bytes of the instruction. *)
Theorem Step_add_sub (c : Cpu) (op r1 r2 r3 a b : Z) (rest : list Z) :
  length (reg c) = 8%nat → err c = None → 0 ≤ buf_i c →
  op = Asm.OpAdd ∨ op = Asm.OpSub →
  0 ≤ r1 < 8 → 0 ≤ r2 < 8 → 0 ≤ r3 < 8 →
  drop (Z.to_nat (buf_i c)) (buf_s c) = op :: r1 :: r2 :: r3 :: rest →
  reg c !! Z.to_nat r1 = Some a → reg c !! Z.to_nat r2 = Some b →
  Step c = Done None
    (moved (<[Z.to_nat r3 := wrap32 (if decide (op = Asm.OpAdd) then a + b else a - b)]> (reg c))
           (buf_i c + 4) (wrap32 (pc c + 4)) c).
Proof.
  intros Hlen Herr Hi Hop H1 H2 H3 Hdrop Ha Hb.
  destruct Hop as [-> | ->].
  all: erewrite Step_fetch; [|done..|reflexivity].
  all: erewrite (operands_ok 3 _ _ _ [r1; r2; r3] rest); try done.
  all: unfold mbind, M_bind.
  all: rewrite (readReg_ok r1 a), (readReg_ok r2 b) by (done || lia).
  all: rewrite writeReg_ok by (done || lia).
  all: cbn; rewrite Herr, pc_after; case_decide; try done; same_state.
Qed.

Lemma le32_decode_le32 (v : Z) :
  le32_decode (byte_of v) (byte_of (v ≫ 8)) (byte_of (v ≫ 16)) (byte_of (v ≫ 24))
  = wrap32 v.
Proof.
  unfold le32_decode, byte_of, wrap32. change 256 with (2 ^ 8).
  apply Z.bits_inj'. intros n Hn.
  rewrite !Z.lor_spec, !Z.shiftl_spec by lia.
  assert (n < 8 ∨ 8 ≤ n < 16 ∨ 16 ≤ n < 24 ∨ 24 ≤ n < 32 ∨ 32 ≤ n) as Hcase by lia.
  destruct Hcase as [?|[?|[?|[?|?]]]];
    repeat match goal with
    | |- context [Z.testbit (?a mod 2 ^ ?k) ?m] =>
        first [rewrite (Z.testbit_neg_r (a mod 2 ^ k) m) by lia
              |rewrite (Z.mod_pow2_bits_low a k m) by lia
              |rewrite (Z.mod_pow2_bits_high a k m) by lia]
    end;
    rewrite ?Z.shiftr_spec by lia;
    rewrite ?orb_false_r, ?orb_false_l; try done; f_equal; lia.
Qed.

Lemma wrap32_add_r (x y : Z) : wrap32 (x + wrap32 y) = wrap32 (x + y).
Proof. unfold wrap32. by rewrite Z.add_mod_idemp_r. Qed.

Lemma wrap32_sub_r (x y : Z) : wrap32 (x - wrap32 y) = wrap32 (x - y).
Proof. unfold wrap32. by rewrite Zminus_mod_idemp_r. Qed.

(** X3. [lr] reads back what the assembler's [WriteAddr] wrote: placed
    behind the opcode, the four bytes emitted for the value [v] load
    [v] modulo 2^32 into the register named by the next byte. *)
Theorem Step_lr_reads_WriteAddr (c : Cpu) (v r : Z) (rest : list Z) :
  length (reg c) = 8%nat → err c = None → 0 ≤ buf_i c → 0 ≤ r < 8 →
  drop (Z.to_nat (buf_i c)) (buf_s c)
    = Asm.OpLr :: Asm.buf (Asm.WriteAddr v Asm.NewWriter) ++ r :: rest →
  Step c = Done None
    (moved (<[Z.to_nat r := wrap32 v]> (reg c)) (buf_i c + 6) (wrap32 (pc c + 6)) c).
Proof.
  intros Hlen Herr Hi Hr Hdrop. cbn in Hdrop.
  erewrite Step_fetch; [|done..|reflexivity].
  erewrite (operands_ok 5 _ _ _ ([byte_of v; byte_of (v ≫ 8); byte_of (v ≫ 16); byte_of (v ≫ 24); r]) rest); [|done|done|exact Hdrop|done|done].
  unfold mbind, M_bind. rewrite writeReg_ok by (done || lia).
  cbn. rewrite Herr, pc_after, le32_decode_le32. same_state.
Qed.

Lemma Step_lr_reads_WriteAddr_witness :
  let c := boot (Asm.OpLr :: le32 305419896 ++ [5]) in
  reg <$> steps 1 c = Some [0; 0; 0; 0; 0; 305419896; 0; 0].
Proof.
  intros c.
  assert (steps 1 c = Some (moved (<[5%nat := wrap32 305419896]> (reg c)) 10 (wrap32 6) c))
    as ->; [|reflexivity].
  cbn [steps].
  rewrite (Step_lr_reads_WriteAddr c 305419896 5 []); [done|reflexivity|reflexivity|done|lia|reflexivity].
Defined.

(** X4. [addi] and [subi] on valid registers add or subtract the
    immediate modulo 2^32. *)
Theorem Step_addi_subi (c : Cpu) (op r1 r2 a v : Z) (rest : list Z) :
  length (reg c) = 8%nat → err c = None → 0 ≤ buf_i c →
  op = Asm.OpAddi ∨ op = Asm.OpSubi →
  0 ≤ r1 < 8 → 0 ≤ r2 < 8 →
  drop (Z.to_nat (buf_i c)) (buf_s c) = op :: r1 :: le32 v ++ r2 :: rest →
  reg c !! Z.to_nat r1 = Some a →
  Step c = Done None
    (moved (<[Z.to_nat r2 := wrap32 (if decide (op = Asm.OpAddi) then a + v else a - v)]> (reg c))
           (buf_i c + 7) (wrap32 (pc c + 7)) c).
Proof.
  intros Hlen Herr Hi Hop H1 H2 Hdrop Ha. cbn in Hdrop.
  destruct Hop as [-> | ->].
  all: erewrite Step_fetch; [|done..|reflexivity].
  all: erewrite (operands_ok 6 _ _ _ (r1 :: [byte_of v; byte_of (v ≫ 8); byte_of (v ≫ 16); byte_of (v ≫ 24); r2]) rest);
    [|done|done|exact Hdrop|done|done].
  all: unfold mbind, M_bind.
  all: rewrite (readReg_ok r1 a) by (done || lia).
  all: rewrite writeReg_ok by (done || lia).
  all: cbn; rewrite Herr, pc_after, le32_decode_le32, ?wrap32_add_r, ?wrap32_sub_r.
  all: case_decide; try done; same_state.
Qed.

Lemma Step_addi_subi_witness :
  let c := boot (Asm.OpSubi :: 0 :: le32 1 ++ [1]) in
  reg <$> steps 1 c = Some [0; 4294967295; 0; 0; 0; 0; 0; 0].
Proof.
  intros c.
  assert (steps 1 c = Some (moved (<[1%nat := wrap32 (0 - 1)]> (reg c)) 11 (wrap32 7) c))
    as ->; [|reflexivity].
  cbn [steps].
  rewrite (Step_addi_subi c Asm.OpSubi 0 1 0 1 []);
    [done|reflexivity|reflexivity|done|by right|lia|lia|reflexivity|reflexivity].
Defined.

Lemma Step_add_sub_witness :
  let c := set_reg [1; 2; 3; 4; 5; 6; 7; 8] (boot [Asm.OpSub; 0; 1; 2]) in
  reg <$> steps 1 c = Some [1; 2; 4294967295; 4; 5; 6; 7; 8].
Proof.
  intros c.
  assert (steps 1 c = Some (moved (<[2%nat := wrap32 (1 - 2)]> (reg c)) 8 (wrap32 4) c))
    as ->; [|reflexivity].
  cbn [steps].
  rewrite (Step_add_sub c Asm.OpSub 0 1 2 1 2 []);
    [done|reflexivity|reflexivity|done|by right|lia|lia|lia|reflexivity|reflexivity|reflexivity].
Defined.

(** X5. The four conditional branches on valid registers compare the two
    registers as unsigned 32-bit values: when the comparison holds,
    execution continues at the target, otherwise behind the seven bytes of
    the instruction; no register changes. *)
Theorem Step_branch (c : Cpu) (op r1 r2 a b t : Z) (rest : list Z) :
  length (reg c) = 8%nat → err c = None → 0 ≤ buf_i c →
  Asm.OpBeq ≤ op ≤ Asm.OpBlt → 0 ≤ r1 < 8 → 0 ≤ r2 < 8 → is_u32 t →
  drop (Z.to_nat (buf_i c)) (buf_s c) = op :: r1 :: r2 :: le32 t ++ rest →
  reg c !! Z.to_nat r1 = Some a → reg c !! Z.to_nat r2 = Some b →
  Step c = Done None
    (if branch_taken op a b then moved (reg c) (wrap32 (t + 4)) t c
     else moved (reg c) (buf_i c + 7) (wrap32 (pc c + 7)) c).
Proof.
  intros Hlen Herr Hi Hop H1 H2 Ht Hdrop Ha Hb. cbn in Hdrop.
  assert (op = Asm.OpBeq ∨ op = Asm.OpBne ∨ op = Asm.OpBgt ∨ op = Asm.OpBlt) as Hcase
    by (unfold Asm.OpBeq, Asm.OpBne, Asm.OpBgt, Asm.OpBlt in *; lia).
  destruct Hcase as [-> | [-> | [-> | ->]]].
  all: erewrite Step_fetch; [|done..|reflexivity].
  all: unfold branch.
  all: erewrite (operands_ok 6 _ _ _
         [r1; r2; byte_of t; byte_of (t ≫ 8); byte_of (t ≫ 16); byte_of (t ≫ 24)] rest);
    [|done|done|exact Hdrop|done|done].
  all: unfold mbind, M_bind.
  all: rewrite (readReg_ok r1 a), (readReg_ok r2 b) by (done || lia).
  all: unfold branch_taken; repeat (case_decide; try done).
  all: destruct (bool_decide _); rewrite ?jump_eq; cbn; rewrite Herr.
  all: rewrite ?le32_decode_le32, ?pc_after, ?Z.add_0_r, ?(wrap32_id (wrap32 t)),
         ?(wrap32_id t) by (done || apply wrap32_u32).
  all: same_state.
Qed.

Lemma Step_branch_witness :
  let c := set_reg [3; 2; 0; 0; 0; 0; 0; 0] (boot (Asm.OpBgt :: 0 :: 1 :: le32 64 ++ [Asm.OpExit])) in
  pc <$> steps 1 c = Some 64.
Proof.
  intros c.
  assert (steps 1 c = Some (moved (reg c) (wrap32 (64 + 4)) 64 c)) as ->; [|reflexivity].
  cbn [steps].
  rewrite (Step_branch c Asm.OpBgt 0 1 3 2 64 [Asm.OpExit]);
    [done|reflexivity|reflexivity|done|done|lia|lia|by unfold is_u32
    |reflexivity|reflexivity|reflexivity].
Defined.

Lemma writeImm_poke (a v : Z) (c : Cpu) :
  length (mem c) = Z.to_nat 8192 → 0 ≤ a ≤ 8188 →
  writeImm a v c = Done None (set_mem (poke (Z.to_nat a) v (mem c)) c).
Proof.
  intros Hlen Ha.
  assert (Z.of_nat (length (mem c)) = 8192) as Hlen' by lia.
  unfold writeImm, mbind, M_bind, get. rewrite Hlen'.
  case_decide; [lia|].
  unfold wrap32. rewrite !Z.mod_small by lia.
  repeat (rewrite storeByte_ok
            by (cbn [mem set_mem]; rewrite ?length_insert, Hlen'; lia)).
  unfold poke. cbn [mem set_mem].
  replace (Z.to_nat (a + 1)) with (Z.to_nat a + 1)%nat by lia.
  replace (Z.to_nat (a + 2)) with (Z.to_nat a + 2)%nat by lia.
  replace (Z.to_nat (a + 3)) with (Z.to_nat a + 3)%nat by lia.
  reflexivity.
Qed.

(** X6. [st r1 r2] on valid registers, with an address of at most 8188
    in [r1]: the four bytes at the address become the little-endian bytes
    of the value of [r2], every other byte of memory and every register is
    kept, and no error is returned. *)
Theorem Step_st (c : Cpu) (r1 r2 a v : Z) (rest : list Z) :
  length (reg c) = 8%nat → length (mem c) = Z.to_nat 8192 →
  err c = None → 0 ≤ buf_i c → 0 ≤ r1 < 8 → 0 ≤ r2 < 8 →
  drop (Z.to_nat (buf_i c)) (buf_s c) = Asm.OpSt :: r1 :: r2 :: rest →
  reg c !! Z.to_nat r1 = Some a → reg c !! Z.to_nat r2 = Some v →
  0 ≤ a ≤ 8188 →
  ∃ m, Step c = Done None (set_mem m (moved (reg c) (buf_i c + 3) (wrap32 (pc c + 3)) c)) ∧
       length m = length (mem c) ∧
       take 4 (drop (Z.to_nat a) m) = le32 v ∧
       ∀ j : nat, (j < Z.to_nat a ∨ Z.to_nat a + 4 ≤ j)%nat → m !! j = mem c !! j.
Proof.
  intros Hlen Hmem Herr Hi H1 H2 Hdrop Ha Hv Hbound.
  exists (poke (Z.to_nat a) v (mem c)). split_and!.
  - erewrite Step_fetch; [|done..|reflexivity].
    erewrite (operands_ok 2 _ _ _ [r1; r2] rest); [|done|done|exact Hdrop|done|done].
    unfold mbind, M_bind.
    rewrite (readReg_ok r1 a), (readReg_ok r2 v) by (done || lia).
    rewrite writeImm_poke by done.
    cbn. rewrite pc_after. same_state.
  - apply length_poke.
  - apply poke_inside. lia.
  - intros j Hj. by apply poke_outside.
Qed.

Lemma Step_st_witness :
  let c := set_reg [16; 258; 0; 0; 0; 0; 0; 0] (boot [Asm.OpSt; 0; 1]) in
  ∃ c', steps 1 c = Some c' ∧ take 4 (drop 16 (mem c')) = [2; 1; 0; 0].
Proof.
  intros c.
  destruct (Step_st c 0 1 16 258 []) as (m & Hstep & _ & Hm & _);
    [reflexivity|reflexivity|reflexivity|done|lia|lia|reflexivity|reflexivity
    |reflexivity|lia|].
  eexists. cbn [steps]. rewrite Hstep. split; [reflexivity|exact Hm].
Defined.



(** ** Faults *)

Lemma readImm_0 (c : Cpu) (b0 b1 b2 b3 : Z) (m : list Z) :
  mem c = b0 :: b1 :: b2 :: b3 :: m →
  readImm 0 c = Done (le32_decode b0 b1 b2 b3, None) c.
Proof.
  intros Hm. unfold readImm, mbind, M_bind, get. rewrite Hm.
  case_decide; [simpl in *; lia|]. by case_decide.
Qed.

(** X7. [ld] with an address register above 8 reports nothing: the
    refused register latches the error and bit 0 of [flags], the load from
    address 0 that follows succeeds and clears the error, and [Step]
    returns [nil]. Registers and memory are unchanged; a machine whose
    [flags] were 0 is now halted. *)
Theorem ld_with_refused_register_halts_silently (c : Cpu) (r1 r2 : Z) (rest : list Z) :
  length (reg c) = 8%nat → (4 ≤ length (mem c))%nat →
  err c = None → 0 ≤ buf_i c → 8 < r2 →
  drop (Z.to_nat (buf_i c)) (buf_s c) = Asm.OpLd :: r1 :: r2 :: rest →
  ∃ c', Step c = Done None c' ∧
        c' = set_flags (Z.lor (flags c) 1) (moved (reg c) (buf_i c + 3) (wrap32 (pc c + 3)) c) ∧
        (flags c = 0 → State c' = false).
Proof.
  intros Hlen Hmem Herr Hi Hr Hdrop.
  destruct (mem c) as [|b0 [|b1 [|b2 [|b3 m]]]] eqn:Hm; simpl in Hmem; try lia.
  eexists. split_and!; [|reflexivity|by intros ->].
  erewrite Step_fetch; [|done..|reflexivity].
  erewrite (operands_ok 2 _ _ _ [r1; r2] rest); [|done|done|exact Hdrop|done|done].
  unfold mbind, M_bind. rewrite readReg_above_8 by done.
  erewrite readImm_0 by (cbn; exact Hm).
  cbn. rewrite pc_after. same_state.
Qed.

Lemma ld_with_refused_register_halts_silently_witness :
  let c := boot [Asm.OpLd; 0; 9; Asm.OpP; 0] in
  ∃ c', Step c = Done None c' ∧ State c' = false.
Proof.
  intros c.
  destruct (ld_with_refused_register_halts_silently c 0 9 [Asm.OpP; 0])
    as (c' & Hstep & _ & Hhalt);
    [reflexivity|vm_compute; lia|reflexivity|done|lia|reflexivity|].
  exists c'. split; [done|]. by apply Hhalt.
Defined.

Lemma ops_None (op : Z) : ¬ (0 ≤ op ≤ 16) → ops op = None.
Proof.
  intros Hop. unfold ops.
  repeat (case_decide as H; [exfalso; apply Hop; rewrite H; by vm_compute|clear H]).
  done.
Qed.

(** X8. A byte that is no opcode: [Step] returns [invalid opcode] with
    the byte in hexadecimal, has consumed the byte, and leaves everything
    else as it was, [pc] included; the error is returned but not latched
    in the machine. *)
Theorem Step_invalid_opcode (c : Cpu) (op : Z) (rest : list Z) :
  err c = None → 0 ≤ buf_i c → is_u32 (pc c) →
  drop (Z.to_nat (buf_i c)) (buf_s c) = op :: rest → ¬ (0 ≤ op ≤ 16) →
  Step c = Done (Some ("invalid opcode: " +:+ hex_pad 2 op)) (set_buf_i (buf_i c + 1) c).
Proof.
  intros Herr Hi Hpc Hdrop Hop. unfold Step, mbind, M_bind.
  rewrite (read_ok 1 c [op] rest) by done.
  unfold get. change (err (set_buf_i _ c)) with (err c). rewrite Herr.
  unfold modify. change (default 0 (head [op])) with op. rewrite ops_None by done.
  unfold mret, M_ret. f_equal. cbn.
  replace (wrap32 (wrap32 (pc c + 1) - 1)) with (pc c).
  - by destruct c.
  - unfold wrap32. rewrite Zminus_mod_idemp_l.
    replace (pc c + 1 - 1) with (pc c) by lia. symmetry. by apply wrap32_id.
Qed.

Lemma Step_invalid_opcode_witness :
  let c := boot [17] in
  Step c = Done (Some "invalid opcode: 11"%string) (set_buf_i 5 c).
Proof.
  intros c.
  apply (Step_invalid_opcode c 17 []);
    [reflexivity|done|by unfold is_u32|reflexivity|lia].
Defined.

(** The operand read of a handler when fewer than [n] bytes are left. *)
Lemma with_operands_short (n : nat) (k : list Z → M Z) (c : Cpu) (bs : list Z) :
  0 ≤ buf_i c → drop (Z.to_nat (buf_i c)) (buf_s c) = bs → (length bs < n)%nat →
  with_operands n k c
  = Done 0 (set_err (Some "bad read"%string) (set_buf_i (buf_i c + Z.of_nat (length bs)) c)).
Proof.
  intros Hi Hdrop Hlen. unfold with_operands, mbind, M_bind, read.
  case_decide as Hend.
  - rewrite drop_ge in Hdrop by lia. subst bs. cbn.
    rewrite Z.add_0_r. by destruct c.
  - rewrite Hdrop. rewrite take_ge by lia.
    case_decide; [lia|]. done.
Qed.

(** X9. An instruction cut short by the end of the code: when fewer
    operand bytes follow the opcode than its handler reads, [Step] returns
    [bad read] and latches it, the reader has consumed what was left, [pc]
    has advanced over the opcode only, and no register, memory byte or
    flag has changed. *)
Theorem Step_truncated_instruction (c : Cpu) (op : Z) (bs : list Z) :
  err c = None → 0 ≤ buf_i c → 0 ≤ op ≤ 16 →
  drop (Z.to_nat (buf_i c)) (buf_s c) = op :: bs →
  (length bs < operand_bytes op)%nat →
  Step c = Done (Some "bad read"%string)
    (set_err (Some "bad read"%string)
       (moved (reg c) (Z.of_nat (length (buf_s c))) (wrap32 (pc c + 1)) c)).
Proof.
  intros Herr Hi Hop Hdrop Hlen.
  assert (Z.of_nat (length (buf_s c)) = buf_i c + 1 + Z.of_nat (length bs)) as Hend.
  { apply (f_equal length) in Hdrop. rewrite length_drop in Hdrop.
    simpl in Hdrop. lia. }
  assert (drop (Z.to_nat (buf_i c + 1)) (buf_s c) = bs) as Hdrop'
    by (by apply (drop_next _ 1 _ [op])).
  assert (op = 0 ∨ op = 1 ∨ op = 2 ∨ op = 3 ∨ op = 4 ∨ op = 5 ∨ op = 6 ∨ op = 7 ∨
          op = 8 ∨ op = 9 ∨ op = 10 ∨ op = 11 ∨ op = 12 ∨ op = 13 ∨ op = 14 ∨
          op = 15 ∨ op = 16) as Hcase by lia.
  repeat (destruct Hcase as [-> | Hcase]); [..|subst op].
  all: try (by vm_compute in Hlen; lia).
  all: erewrite Step_fetch; [|done..|reflexivity].
  all: unfold branch.
  all: rewrite (with_operands_short _ _ _ bs);
    [|cbn; lia|exact Hdrop'|exact Hlen].
  all: cbn; rewrite Hend, wrap32_add_l, Z.add_0_r; same_state.
Qed.

Lemma Step_truncated_instruction_witness :
  let c := boot [Asm.OpAdd; 1; 2] in
  ∃ c', Step c = Done (Some "bad read"%string) c' ∧ reg c' = reg c ∧ pc c' = 1.
Proof.
  intros c. eexists. split.
  - apply (Step_truncated_instruction c Asm.OpAdd [1; 2]);
      [reflexivity|done|done|reflexivity|vm_compute; lia].
  - split; reflexivity.
Defined.

(** X10. Once an error is latched, [Step] executes nothing: it still
    consumes one byte when one is left, returns the latched error (or
    [bad read] when the code is exhausted), and changes no register, no
    memory byte, neither [pc] nor [flags], and prints nothing; the code is
    the same and the reader has moved by at most one byte. *)
Theorem Step_after_error (c : Cpu) (e : string) :
  err c = Some e →
  ∃ e' c', Step c = Done (Some e') c' ∧
    (e' = e ∨ e' = "bad read"%string) ∧ err c' = Some e' ∧
    reg c' = reg c ∧ mem c' = mem c ∧ pc c' = pc c ∧ flags c' = flags c ∧
    stdout c' = stdout c ∧ buf_s c' = buf_s c ∧ buf_i c ≤ buf_i c' ≤ buf_i c + 1.
Proof.
  intros Herr. unfold Step, mbind, M_bind, read, get.
  repeat case_decide; cbn; rewrite ?Herr; cbn;
    do 2 eexists; (split; [reflexivity|]); cbn; split_and!; eauto;
    rewrite ?length_take; lia.
Qed.

Lemma Step_after_error_witness :
  let c := set_err (Some "invalid register 09"%string) (boot [Asm.OpExit]) in
  ∃ e' c', Step c = Done (Some e') c' ∧ flags c' = 0.
Proof.
  intros c.
  destruct (Step_after_error c "invalid register 09" eq_refl)
    as (e' & c' & Hstep & _ & _ & _ & _ & _ & Hf & _).
  by exists e', c'.
Defined.

(** ** The loader, the driver loop and the trace *)

Lemma New_snd (buf : list Z) :
  snd (New buf) =
    if decide (length buf = 0%nat) then Some "could not read header"%string
    else if decide (take 4 buf ++ replicate (4 - length (take 4 buf)) 0 = Asm.Hdr)
         then None else Some "bad header"%string.
Proof. unfold New. by repeat destruct (decide _). Qed.

Lemma New_buf_i (buf : list Z) :
  buf_i (fst (New buf)) = Z.of_nat (length (take 4 buf)).
Proof.
  unfold New. repeat destruct (decide _); try reflexivity.
  by destruct buf.
Qed.

(** X11. What [New] accepts: the objects that begin with the four header
    bytes and, because a short read leaves the rest of the comparison
    buffer zero, the three bytes [48 59 50] alone. Only the empty object
    gives [could not read header]. The reader is left behind the bytes
    that were read, at most four. *)
Theorem New_accepts (buf : list Z) :
  (snd (New buf) = None ↔ (∃ code, buf = Asm.Hdr ++ code) ∨ buf = [72; 89; 80]) ∧
  (snd (New buf) = Some "could not read header"%string ↔ buf = []) ∧
  (buf ≠ [] → snd (New buf) ≠ None → snd (New buf) = Some "bad header"%string) ∧
  buf_i (fst (New buf)) = Z.min 4 (Z.of_nat (length buf)).
Proof.
  rewrite New_snd, New_buf_i.
  destruct buf as [|b0 [|b1 [|b2 [|b3 rest]]]]; cbn [length take app replicate Nat.sub].
  all: repeat case_decide; try done; try lia.
  all: unfold Asm.Hdr in *; rewrite ?take_0; split_and!; [..|simpl; lia].
  all: try (intros; simplify_eq; fail).
  all: split; intros HH; try destruct HH as [[code HH]|HH]; simplify_eq/=; eauto.
Qed.

(** The loop of [main] runs [Step] while it returns [nil] and the
    machine is not halted. *)
Lemma run_sound (fuel : nat) (c c' : Cpu) (rep : list string) :
  Hypo.run fuel c = Asm.Returns (c', rep) →
  (rep = [] ∧ flags c' = 1 ∧ ∃ n, steps n c = Some c') ∨
  (∃ e c1 n, steps n c = Some c1 ∧ flags c1 ≠ 1 ∧ Step c1 = Done (Some e) c' ∧
             rep = ("fatal: " +:+ e +:+ nl +:+ nl) :: WriteTrace c').
Proof.
  revert c. induction fuel as [|fuel IH]; intros c H; [done|].
  cbn [Hypo.run] in H. unfold State in H. case_bool_decide as Hf.
  - destruct (Step c) as [[e|] c1|] eqn:Hstep; [| |done].
    + injection H as <- <-. right. exists e, c, 0%nat. by split_and!.
    + apply IH in H as [(-> & Hfl & n & Hn)|(e & c2 & n & Hn & Hfl & Hs & ->)].
      * left. split_and!; [done..|]. exists (S n). cbn [steps]. by rewrite Hstep.
      * right. exists e, c2, (S n). split_and!; try done. cbn [steps]. by rewrite Hstep.
  - injection H as <- <-. left. split_and!; [done| |by exists 0%nat].
    by destruct (decide (flags c = 1)).
Qed.

Lemma steps_evolves (n : nat) (c c' : Cpu) : steps n c = Some c' → evolves c c'.
Proof.
  revert c. induction n as [|n IH]; intros c H; simpl in H.
  - injection H as <-. apply evolves_refl.
  - destruct (Step c) as [[e|] c1|] eqn:Hstep; try done.
    eapply evolves_trans; [by eapply Step_evolves|by apply IH].
Qed.

(** The error that [Step] returns is the one latched in the machine,
    except for an invalid opcode, which is returned without being
    latched. *)
Lemma Step_error_source (c : Cpu) (e : string) (c' : Cpu) :
  Step c = Done (Some e) c' →
  err c' = Some e ∨ ∃ op, e = "invalid opcode: " +:+ hex_pad 2 op.
Proof.
  intros H. unfold Step in H.
  apply bind_Done in H as (bs & c0 & _ & H).
  apply bind_Done in H as (? & ? & [= <- <-] & H).
  destruct (err c0) eqn:He.
  { apply ret_Done in H as [[= <-] ->]. by left. }
  apply bind_Done in H as (? & c1 & _ & H).
  destruct (ops _) as [f|].
  - apply bind_Done in H as (n & c2 & _ & H).
    apply bind_Done in H as (? & c3 & _ & H).
    apply bind_Done in H as (? & ? & [= <- <-] & H).
    apply ret_Done in H as [He' ->]. by left.
  - apply bind_Done in H as (? & c2 & _ & H).
    apply ret_Done in H as [[= ->] ->]. right. by eexists.
Qed.

(** X12. What the loop of [main] ends in. Either it printed nothing and
    stopped on a machine whose [flags] are exactly 1, or the last [Step]
    returned an error and the loop printed that error and the trace of the
    state the failing step left; the error is then the one latched in the
    machine, or an invalid opcode. In both cases the code is the one the
    loop started with and the program's output has only grown. *)
Theorem run_ends_halted_or_fatal (fuel : nat) (c c' : Cpu) (rep : list string) :
  Hypo.run fuel c = Asm.Returns (c', rep) →
  ((rep = [] ∧ State c' = false) ∨
   (∃ e, rep = ("fatal: " +:+ e +:+ nl +:+ nl) :: WriteTrace c' ∧
         (err c' = Some e ∨ ∃ op, e = "invalid opcode: " +:+ hex_pad 2 op))) ∧
  buf_s c' = buf_s c ∧ stdout c `prefix_of` stdout c'.
Proof.
  intros H. apply run_sound in H as [(-> & Hfl & n & Hn)|(e & c1 & n & Hn & Hfl & Hs & ->)].
  - split.
    + left. split; [done|]. unfold State. by rewrite Hfl.
    + apply steps_evolves in Hn as (? & _ & _ & _ & ?). done.
  - split.
    + right. exists e. split; [done|]. by eapply Step_error_source.
    + apply steps_evolves in Hn as (Hb & _ & _ & _ & Ho).
      apply Step_evolves in Hs as (Hb' & _ & _ & _ & Ho').
      split; [congruence|by etrans].
Qed.

Lemma run_ends_halted_or_fatal_witness :
  let c := boot [Asm.OpP; 0; 17] in
  ∃ c' rep, Hypo.run 5 c = Asm.Returns (c', rep) ∧ buf_s c' = buf_s c ∧
            stdout c' = [0] ∧ head rep = Some ("fatal: invalid opcode: 11" +:+ nl +:+ nl).
Proof.
  intros c.
  assert (∃ c' rep, Hypo.run 5 c = Asm.Returns (c', rep)) as (c' & rep & H)
    by (do 2 eexists; vm_compute; reflexivity).
  exists c', rep. split; [done|].
  destruct (run_ends_halted_or_fatal 5 c c' rep H) as (_ & Hb & _).
  split; [done|]. revert H. vm_compute. by intros [= <- <-].
Defined.

(** X13. [exit] stops the machine: on a machine that is running with
    [flags] 0, the loop of [main] executes the [exit] at the reader and
    nothing behind it, prints no report, and leaves registers, memory and
    output as they were. *)
Theorem exit_stops_the_loop (fuel : nat) (c : Cpu) (rest : list Z) :
  flags c = 0 → err c = None → 0 ≤ buf_i c →
  drop (Z.to_nat (buf_i c)) (buf_s c) = Asm.OpExit :: rest →
  Hypo.run (S (S fuel)) c
  = Asm.Returns (set_flags 1 (moved (reg c) (buf_i c + 1) (wrap32 (pc c + 1)) c), []).
Proof.
  intros Hf Herr Hi Hdrop.
  set (c' := set_flags 1 (moved (reg c) (buf_i c + 1) (wrap32 (pc c + 1)) c)).
  assert (Step c = Done None c') as Hstep.
  { erewrite Step_fetch; [|done..|reflexivity].
    unfold mbind, M_bind, modify, mret, M_ret. cbn.
    rewrite Herr, Hf, wrap32_add_l, Z.add_0_r. same_state. }
  cbn [Hypo.run]. unfold State.
  rewrite Hstep, bool_decide_eq_true_2 by lia.
  by rewrite bool_decide_eq_false_2 by (cbn; lia).
Qed.

Lemma exit_stops_the_loop_witness :
  let c := boot [Asm.OpExit; Asm.OpP; 9] in
  ∃ c', Hypo.run 2 c = Asm.Returns (c', []) ∧ pc c' = 1 ∧ stdout c' = [].
Proof.
  intros c. eexists. split.
  - apply (exit_stops_the_loop 0 c [Asm.OpP; 9]); [reflexivity|reflexivity|done|reflexivity].
  - split; reflexivity.
Defined.

Lemma mem_trace_take (i : Z) (l : list Z) :
  mem_trace i l = mem_trace i (take (Z.to_nat (256 - i)) l).
Proof.
  revert i. induction l as [|j l IH]; intros i; [by rewrite take_nil|].
  destruct (decide (i > 255)) as [Hi|Hi].
  - replace (Z.to_nat (256 - i)) with 0%nat by lia. cbn [take mem_trace].
    by destruct (decide (i > 255)).
  - replace (Z.to_nat (256 - i)) with (S (Z.to_nat (256 - (i + 1)))) by lia.
    cbn [take mem_trace]. destruct (decide (i > 255)) as [?|_]; [done|].
    by rewrite <- IH.
Qed.

(** X14. The trace shows the registers, [pc] and the first 256 bytes of
    memory, and nothing else: two machines that agree on these have the
    same trace, whatever the rest of their memory, their flags, their
    error or their reader. *)
Theorem WriteTrace_covers_256_bytes (c c' : Cpu) :
  reg c = reg c' → pc c = pc c' → take 256 (mem c) = take 256 (mem c') →
  WriteTrace c = WriteTrace c'.
Proof.
  intros Hr Hp Hm. unfold WriteTrace.
  rewrite Hr, Hp, (mem_trace_take 0 (mem c)), (mem_trace_take 0 (mem c')).
  change (Z.to_nat (256 - 0)) with 256%nat. by rewrite Hm.
Qed.

Lemma WriteTrace_covers_256_bytes_witness :
  let c := boot [] in
  WriteTrace (set_flags 1 (set_mem (<[300%nat := 255]> (mem c)) c)) = WriteTrace c.
Proof.
  intros c. apply WriteTrace_covers_256_bytes; [reflexivity|reflexivity|].
  by vm_compute.
Defined.

End MachineProperties.

(** * Further properties of the assembler *)

Section AssemblerProperties.

Import Asm.

(** ** The symbol reader and the writer *)

(** X15. [Expect] consumes the symbol it looks at whether or not it
    accepts it, and stays where it is only at the end of the list, where
    it returns the zero symbol and [bad argument count]. It accepts a
    symbol of the expected kind, a label where an identifier is expected,
    and an identifier where a register or an address is expected. *)
Theorem Expect_consumes_what_it_rejects (t : Z) (rd : Reader) :
  match sym rd !! nsym rd with
  | None => Expect t rd = (Symbol0, Some "bad argument count"%string, rd)
  | Some x =>
      ∃ e, Expect t rd = (x, e, mkReader (sym rd) (S (nsym rd))) ∧
           (e = None ↔ Typ x = t ∨ (t = Id ∧ Typ x = Label) ∨ (t ≠ Id ∧ Typ x = Id))
  end.
Proof.
  unfold Expect, Reader_Read. destruct (sym rd !! nsym rd) as [x|]; [|done].
  repeat case_decide; eexists; (split; [reflexivity|]).
  all: split; intros HH; try done.
  all: destruct (decide (Typ x = t)), (decide (Typ x = Label)), (decide (Typ x = Id));
    intuition congruence.
Qed.

(** X16. A call of [WriteSymbol] that returns an error leaves the
    writer exactly as it was, and there are three such errors: a label
    that is already defined, a register that is no decimal number, and an
    address that is no hexadecimal number of the signed 32-bit range. *)
Theorem WriteSymbol_error_leaves_writer (s : Symbol) (w w' : Writer) (e : string) :
  WriteSymbol s w = (w', Some e) →
  w' = w ∧
  ((Typ s = Label ∧ is_Some (lab w !! Val s) ∧ e = "redefining label '" +:+ Val s +:+ "'")
   ∨ (Typ s = Reg ∧ Atoi (Val s) = None ∧ e = "bad register '" +:+ Val s +:+ "'")
   ∨ (Typ s = Addr ∧ ParseInt (Val s) 16 32 = None ∧ e = "bad address '" +:+ Val s +:+ "'")).
Proof.
  unfold WriteSymbol. repeat case_decide; repeat case_match; intros [= <- <-];
    (split; [done|]); eauto 10.
Qed.

Lemma WriteSymbol_error_leaves_writer_witness :
  let w := emit (mkSymbol Label "loop" 1) NewWriter in
  ∃ e, WriteSymbol (mkSymbol Label "loop" 7) w = (w, Some e).
Proof.
  intros w.
  destruct (WriteSymbol (mkSymbol Label "loop" 7) w) as [w' [e|]] eqn:H;
    [|by vm_compute in H].
  destruct (WriteSymbol_error_leaves_writer _ _ _ _ H) as [-> _]. by exists e.
Defined.

Lemma emit_prefix (s : Symbol) (w : Writer) : buf w `prefix_of` buf (emit s w).
Proof.
  destruct (emit_cases s w) as [->|[[b ->]|[[a ->]|[(_ & _ & ->)|(_ & _ & ->)]]]];
    simpl; try done; by apply prefix_app_r.
Qed.

(** X17. The writer only appends: whatever symbols are written next,
    the bytes emitted so far stay at the head of the buffer and a label
    once defined keeps its value. Patches are applied by [Write] alone. *)
Theorem Writer_only_appends (ss : list Symbol) (w : Writer) :
  buf w `prefix_of` buf (emit_all ss w) ∧
  ∀ L v, lab w !! L = Some v → lab (emit_all ss w) !! L = Some v.
Proof.
  split; [|intros L v; apply emit_all_keeps_label].
  revert w. induction ss as [|s ss IH]; intros w; simpl; [done|].
  etrans; [apply (emit_prefix s)|apply IH].
Qed.

(** X18. The value of a label is the number of bytes emitted before
    it: as long as fewer than 2^32 bytes precede its first definition, no
    later symbol, and no later definition of the same name, changes it. *)
Theorem label_is_offset_of_its_definition (pre post : list Symbol) (L : string) (ln : Z) :
  small (emit_all pre NewWriter) →
  lab (emit_all pre NewWriter) !! L = None →
  lab (emit_all (pre ++ mkSymbol Label L ln :: post) NewWriter) !! L
    = Some (Z.of_nat (length (buf (emit_all pre NewWriter)))).
Proof.
  intros Hsmall HL. rewrite label_defined_at by done. f_equal.
  apply emit_all_ok; [apply NewWriter_ok|done].
Qed.

Lemma label_is_offset_of_its_definition_witness :
  lab (emit_all [mkSymbol Id "nop" 0; mkSymbol Label "l" 1; mkSymbol Id "exit" 2;
                 mkSymbol Label "l" 3] NewWriter) !! "l"%string = Some 1.
Proof.
  apply (label_is_offset_of_its_definition [mkSymbol Id "nop" 0] _ "l" 1);
    [by vm_compute|reflexivity].
Defined.

(** ** Instructions *)

(** The mnemonics, one by one. *)
Lemma inst_cases (m : string) (f : Instruction) :
  inst !! m = Some f →
  (m, f) ∈ [("nop"%string, mkInstruction OpNop []);
            ("ld"%string, mkInstruction OpLd [Reg; Reg]);
            ("lr"%string, mkInstruction OpLr [Addr; Reg]);
            ("st"%string, mkInstruction OpSt [Reg; Reg]);
            ("add"%string, mkInstruction OpAdd [Reg; Reg; Reg]);
            ("sub"%string, mkInstruction OpSub [Reg; Reg; Reg]);
            ("addi"%string, mkInstruction OpAddi [Reg; Addr; Reg]);
            ("subi"%string, mkInstruction OpSubi [Reg; Addr; Reg]);
            ("p"%string, mkInstruction OpP [Reg]);
            ("beq"%string, mkInstruction OpBeq [Reg; Reg; Addr]);
            ("bne"%string, mkInstruction OpBne [Reg; Reg; Addr]);
            ("bgt"%string, mkInstruction OpBgt [Reg; Reg; Addr]);
            ("blt"%string, mkInstruction OpBlt [Reg; Reg; Addr]);
            ("j"%string, mkInstruction OpJ [Addr]);
            ("jr"%string, mkInstruction OpJr [Reg]);
            ("call"%string, mkInstruction OpCall [Addr]);
            ("exit"%string, mkInstruction OpExit [])].
Proof. apply elem_of_list_to_map_2. Qed.

Lemma inst_operand_bytes (m : string) (f : Instruction) :
  inst !! m = Some f → operand_bytes (Op f) = sum_list (operand_width <$> Params f).
Proof.
  intros H. apply inst_cases in H.
  repeat (apply elem_of_cons in H as [[= -> ->]|H]); [..|by apply elem_of_nil in H].
  all: reflexivity.
Qed.



Lemma drop_head {A} (n : nat) (l : list A) (x : A) (xs : list A) :
  drop n l = x :: xs → l !! n = Some x ∧ drop (S n) l = xs.
Proof.
  intros H. split.
  - apply (f_equal (λ k, k !! 0%nat)) in H. rewrite lookup_drop in H.
    by rewrite Nat.add_0_r in H.
  - replace (S n) with (n + 1)%nat by lia. by rewrite <- drop_drop, H.
Qed.

Lemma Expect_literal (t : Z) (s : Symbol) (rd : Reader) :
  literal_operand t s → sym rd !! nsym rd = Some s →
  Expect t rd = (s, None, mkReader (sym rd) (S (nsym rd))).
Proof.
  intros [Ht Hlit] Hs. unfold Expect, Reader_Read. rewrite Hs.
  repeat case_decide; try done; destruct Hlit as [[-> _]|[-> _]]; try done; tauto.
Qed.

Lemma WriteSymbol_literal (t : Z) (s : Symbol) (w : Writer) :
  literal_operand t s →
  ∃ bs, WriteSymbol s w
        = (mkWriter (buf w ++ bs) (wrap32 (pc w + Z.of_nat (length bs))) (lab w) (addr w), None) ∧
        length bs = operand_width t.
Proof.
  intros [Ht [[-> [r Hr]]|[-> [a Ha]]]]; unfold WriteSymbol; rewrite Ht.
  - repeat (case_decide; try done). rewrite Hr. by exists [byte_of r].
  - repeat (case_decide; try done). rewrite Ha. by exists (le32 (wrap32 a)).
Qed.

(** Operands written as literals: each is consumed and emitted, nothing
    is reported. *)
Lemma params_loop_literals (ps : list Z) (ops : list Symbol) (rest : list Symbol)
    (rd : Reader) (w : Writer) (d : Diag) :
  Forall2 literal_operand ps ops →
  drop (nsym rd) (sym rd) = ops ++ rest → is_u32 (pc w) →
  ∃ bs, params_loop ps rd w d
        = (mkReader (sym rd) (nsym rd + length ops),
           mkWriter (buf w ++ bs) (wrap32 (pc w + Z.of_nat (length bs))) (lab w) (addr w), d) ∧
        length bs = sum_list (operand_width <$> ps).
Proof.
  intros Hops. revert rd w.
  induction Hops as [|t s ps ops Hts Hops IH]; intros rd w Hdrop Hpc.
  { exists []. simpl. rewrite app_nil_r, Nat.add_0_r, Z.add_0_r, wrap32_id by done.
    by destruct rd, w. }
  apply drop_head in Hdrop as [Hs Hdrop].
  destruct (WriteSymbol_literal t s w Hts) as (b1 & HW & Hb1).
  destruct (IH (mkReader (sym rd) (S (nsym rd)))
               (mkWriter (buf w ++ b1) (wrap32 (pc w + Z.of_nat (length b1))) (lab w) (addr w)))
    as (b2 & HP & Hb2).
  { done. }
  { apply wrap32_u32. }
  cbn [sym nsym buf pc lab addr] in HP.
  rewrite <- app_assoc, wrap32_add_l, <- Z.add_assoc, <- Nat2Z.inj_add, <- length_app in HP.
  exists (b1 ++ b2). cbn [params_loop].
  rewrite (Expect_literal t s rd Hts Hs), HW, HP.
  replace (nsym rd + length (s :: ops))%nat with (S (nsym rd) + length ops)%nat
    by (simpl; lia).
  split; [done|]. rewrite length_app, Hb1, Hb2. done.
Qed.

(** X20. One round of the second loop of [Gen] on a well-formed
    instruction: a mnemonic followed by operands of the kinds its table
    entry asks for, each written as a literal. The round consumes exactly
    these symbols, reports nothing, and appends the opcode and the operand
    bytes, as many as the machine's handler for the opcode reads. *)
Theorem well_formed_instruction_is_emitted (rd : Reader) (w : Writer) (d : Diag)
    (m : Symbol) (f : Instruction) (ops rest : list Symbol) :
  drop (nsym rd) (sym rd) = m :: ops ++ rest →
  Typ m = Id → inst !! Val m = Some f →
  Forall2 literal_operand (Params f) ops →
  ∃ bs, asm_step rd w d
        = inr (mkReader (sym rd) (nsym rd + 1 + length ops),
               mkWriter (buf w ++ Op f :: bs)
                        (wrap32 (pc w + 1 + Z.of_nat (length bs))) (lab w) (addr w),
               d) ∧
        length bs = operand_bytes (Op f).
Proof.
  intros Hdrop Hm Hf Hops.
  apply drop_head in Hdrop as [Hs Hdrop].
  destruct (params_loop_literals (Params f) ops rest
              (mkReader (sym rd) (S (nsym rd)))
              (mkWriter (buf w ++ [Op f]) (wrap32 (pc w + 1)) (lab w) (addr w)) d Hops)
    as (bs & HP & Hbs).
  { done. }
  { apply wrap32_u32. }
  cbn [sym nsym buf pc lab addr] in HP.
  exists bs. split.
  - unfold asm_step, Expect, Reader_Read. rewrite Hs.
    rewrite decide_True by done. rewrite decide_False by tauto.
    rewrite decide_False by (rewrite Hm; done).
    rewrite decide_True by (rewrite Hm; done). rewrite Hf.
    unfold WriteSymbol. rewrite decide_True by done. rewrite Hf.
    cbn [fst]. unfold incr_pc, WriteByte. cbn [buf pc lab addr].
    rewrite HP.
    replace (nsym rd + 1 + length ops)%nat with (S (nsym rd) + length ops)%nat by lia.
    by rewrite <- app_assoc, wrap32_add_l, <- Z.add_assoc.
  - rewrite Hbs. symmetry. by eapply inst_operand_bytes.
Qed.

Lemma well_formed_instruction_is_emitted_witness :
  let rd := NewReader [mkSymbol Id "lr" 0; mkSymbol Addr "2a" 0; mkSymbol Reg "1" 1;
                       mkSymbol Eof "" 1] in
  ∃ bs, asm_step rd NewWriter (mkDiag 0 [])
        = inr (mkReader (sym rd) 3, mkWriter (OpLr :: bs) (wrap32 (1 + Z.of_nat (length bs))) ∅ ∅,
               mkDiag 0 []) ∧
        length bs = 5%nat.
Proof.
  intros rd.
  apply (well_formed_instruction_is_emitted rd NewWriter (mkDiag 0 [])
           (mkSymbol Id "lr" 0) (mkInstruction OpLr [Addr; Reg])
           [mkSymbol Addr "2a" 0; mkSymbol Reg "1" 1] [mkSymbol Eof "" 1]);
    [reflexivity|reflexivity|reflexivity|].
  constructor; [split; [reflexivity|right; by split; [|eexists]]|].
  constructor; [split; [reflexivity|left; by split; [|eexists]]|].
  constructor.
Defined.

(** X21. Once the reader stands behind the last symbol, the second loop
    of [Gen] never ends: [Expect] returns the zero symbol, which is no
    [Eof], the round reports [bad argument count] and the loop tries
    again. This is where [Gen] ends up when the operands of the last
    instruction are missing and the final [Eof] symbol is taken for one
    of them. *)
Theorem second_loop_spins_behind_last_symbol (fuel : nat) (rd : Reader) (w : Writer) (d : Diag) :
  (length (sym rd) ≤ nsym rd)%nat →
  asm_loop fuel rd w d = OutOfFuel ∧
  asm_step rd w d = inr (rd, w, werr Symbol0 "bad argument count" d).
Proof.
  intros Hend. apply lookup_ge_None_2 in Hend.
  split; [by apply asm_loop_hangs|].
  unfold asm_step, Expect, Reader_Read. rewrite Hend. by case_decide.
Qed.

Lemma second_loop_spins_behind_last_symbol_witness :
  asm_loop 1000 (mkReader [mkSymbol Eof "" 0] 1) NewWriter (mkDiag 0 []) = OutOfFuel.
Proof.
  apply (second_loop_spins_behind_last_symbol 1000 (mkReader [mkSymbol Eof "" 0] 1)).
  simpl. lia.
Defined.

(** ** The lexer *)

Lemma append_snoc (b : string) (c : ascii) (s : string) :
  (b +:+ String c EmptyString) +:+ s = b +:+ String c s.
Proof.
  induction b as [|x b IH]; [done|].
  change (String x ((b +:+ String c EmptyString) +:+ s) = String x (b +:+ String c s)).
  by rewrite IH.
Qed.

Lemma append_empty_r (b : string) : b +:+ EmptyString = b.
Proof.
  induction b as [|x b IH]; [done|].
  change (String x (b +:+ EmptyString) = String x b). by rewrite IH.
Qed.

Lemma no_space_no_newline (c : ascii) : IsSpace c = false → c ≠ "010"%char.
Proof. intros H ->. by vm_compute in H. Qed.

Lemma ReadToken_space (b : string) (lc : Z) (tok : string) (sp : ascii) (rest : string) :
  no_space tok = true → IsSpace sp = true →
  ReadToken b lc (tok +:+ String sp rest)
  = (b +:+ tok, None, (if decide (sp = "010"%char) then lc + 1 else lc), rest).
Proof.
  intros Htok Hsp. revert b. induction tok as [|c tok IH]; intros b.
  - change (EmptyString +:+ String sp rest) with (String sp rest).
    cbn [ReadToken]. by rewrite Hsp, append_empty_r.
  - cbn [no_space] in Htok. apply andb_prop in Htok as [Hc Htok].
    apply negb_true_iff in Hc.
    change (String c tok +:+ String sp rest) with (String c (tok +:+ String sp rest)).
    cbn [ReadToken]. rewrite Hc.
    rewrite decide_False by (by apply no_space_no_newline).
    by rewrite IH, append_snoc.
Qed.

(** X22. [ReadToken] returns the bytes in front of the first space
    byte, consumes that byte with them, and counts a line when it is a
    line feed; when the input ends before any space, it returns the empty
    token and [EOF], whatever it had read. *)
Theorem ReadToken_splits_at_first_space (lc : Z) (tok : string) :
  no_space tok = true →
  (∀ sp rest, IsSpace sp = true →
     ReadToken EmptyString lc (tok +:+ String sp rest)
     = (tok, None, (if decide (sp = "010"%char) then lc + 1 else lc), rest)) ∧
  ReadToken EmptyString lc tok = (EmptyString, Some "EOF"%string, lc, EmptyString).
Proof.
  intros Htok. split; [|by apply ReadToken_eof].
  intros sp rest Hsp. by rewrite ReadToken_space.
Qed.

Lemma ReadToken_splits_at_first_space_witness :
  ReadToken EmptyString 3 ("$2a" +:+ String "010" "%1") = ("$2a"%string, None, 4, "%1"%string).
Proof.
  apply (ReadToken_splits_at_first_space 3 "$2a"); reflexivity.
Defined.

Lemma last_is_colon_defined (c : ascii) (s : string) :
  ∃ b, last_is_colon (String c s) = inl b.
Proof.
  unfold last_is_colon. cbn [String.length]. rewrite Nat.sub_1_r. cbn [Nat.pred].
  assert (∃ a, String.get (String.length s) (String c s) = Some a) as [a ->];
    [|by eexists].
  revert c. induction s as [|c' s IH]; intros c; [by eexists|].
  cbn [String.length String.get]. apply IH.
Qed.

(** X23. What [Read] makes of a token that a space byte ends. Behind
    a sigil, the bytes up to the space are the value of a register or an
    address symbol. A token that begins with a letter is a label when its
    last byte is a colon, which is cut off and makes the line counter
    advance by one more, and an identifier otherwise. The symbol carries
    the line counter as it is after the closing space. *)
Theorem Read_classifies_token (lc : Z) (c : ascii) (tok : string) (sp : ascii) (rest : string) :
  no_space tok = true → IsSpace sp = true →
  let lc' := if decide (sp = "010"%char) then lc + 1 else lc in
  (∀ t, syms c = Some t →
     Read lc (String c tok +:+ String sp rest) = inl (mkSymbol t tok lc', None, lc', rest)) ∧
  (IsLetter c = true →
     ∃ b, last_is_colon (String c tok) = inl b ∧
          Read lc (String c tok +:+ String sp rest)
          = inl (if b then (mkSymbol Label (trim_colon (String c tok)) lc', None, lc' + 1, rest)
                 else (mkSymbol Id (String c tok) lc', None, lc', rest))).
Proof.
  intros Htok Hsp lc'. split.
  - intros t Ht. destruct (sigil_class _ _ Ht) as (Hcs & Hgr & Hh & Hnl).
    unfold Read.
    change (String c tok +:+ String sp rest) with (String c (tok +:+ String sp rest)).
    cbn [Read_loop]. rewrite !decide_False, Hcs, Hgr, Ht by done. cbn [negb].
    by rewrite ReadToken_space.
  - intros Hc. destruct (letter_class _ Hc) as (Hcs & Hgr & Hsy & Hh & Hnl).
    destruct (last_is_colon_defined c tok) as [b Hb]. exists b. split; [done|].
    unfold Read.
    change (String c tok +:+ String sp rest) with (String c (tok +:+ String sp rest)).
    cbn [Read_loop]. rewrite !decide_False, Hcs, Hgr, Hsy, Hc by done. cbn [negb Typ].
    rewrite bool_decide_eq_true_2 by done. cbn [andb].
    change (String c (tok +:+ String sp rest)) with (String c tok +:+ String sp rest).
    rewrite ReadToken_space; [|cbn [no_space]; by rewrite Hcs|done].
    change (EmptyString +:+ String c tok) with (String c tok).
    rewrite Hb. by destruct b.
Qed.

Lemma Read_classifies_token_witness :
  Read 0 ("loop: add") = inl (mkSymbol Label "loop" 0, None, 1, "add"%string).
Proof.
  destruct (Read_classifies_token 0 "l" "oop:" " " "add") as [_ H]; [reflexivity..|].
  destruct H as (b & Hb & H); [reflexivity|].
  vm_compute in Hb. injection Hb as <-. exact H.
Defined.

Lemma skip_line_text (text r : string) :
  no_newline text = true → skip_line (text +:+ String "010" r) = r.
Proof.
  induction text as [|c text IH]; intros H.
  - change (EmptyString +:+ String "010" r) with (String "010" r).
    cbn [skip_line]. by rewrite decide_True.
  - cbn [no_newline] in H. apply andb_prop in H as [Hc H].
    apply negb_true_iff, bool_decide_eq_false in Hc.
    change (String c text +:+ String "010" r) with (String c (text +:+ String "010" r)).
    cbn [skip_line]. rewrite decide_False by done. by apply IH.
Qed.

(** X24. A comment runs from [#] to the end of its line: the first loop
    of [Gen] collects no symbol for it, reports nothing, counts one line,
    and goes on behind the line feed. *)
Theorem comment_line_is_skipped (fuel : nat) (acc : list Symbol) (d : Diag) (lc : Z)
    (text r : string) :
  no_newline text = true → errc d ≤ ErrThreshold →
  lex_loop (S fuel) acc d lc (String "#" (text +:+ String "010" r))
  = lex_loop fuel acc d (lc + 1) r.
Proof.
  intros Htext Hd. cbn [lex_loop]. unfold Read. cbn [Read_loop].
  rewrite (decide_True (P := "#"%char = "#"%char)) by done.
  rewrite (decide_False (P := "#"%char = "010"%char)) by done.
  rewrite skip_line_text by done. cbn [Typ].
  rewrite (decide_False (P := errc d > ErrThreshold)) by lia.
  rewrite (decide_False (P := -1 ≠ -1)) by (intros Hne; by apply Hne).
  by rewrite (decide_False (P := -1 = Eof)) by done.
Qed.

Lemma comment_line_is_skipped_witness :
  lex_loop 3 [] (mkDiag 0 []) 0 ("# set up" +:+ nl +:+ "exit" +:+ nl)
  = lex_loop 2 [] (mkDiag 0 []) 1 ("exit" +:+ nl).
Proof.
  apply (comment_line_is_skipped 2 [] (mkDiag 0 []) 0 " set up" ("exit" +:+ nl));
    [reflexivity|by vm_compute].
Defined.

Lemma ReadToken_extends (b : string) (lc : Z) (r t : string) (lc' : Z) (r' : string) :
  ReadToken b lc r = (t, None, lc', r') → ∃ x, t = b +:+ x.
Proof.
  revert b lc. induction r as [|c r IH]; intros b lc H; [done|].
  cbn [ReadToken] in H. destruct (IsSpace c).
  - injection H as <- _ _. exists EmptyString. by rewrite append_empty_r.
  - apply IH in H as [x ->]. exists (String c x). by rewrite append_snoc.
Qed.

(** [Read] never indexes an empty token. *)
Lemma Read_loop_no_panic (sy : Symbol) (lc : Z) (r : string) :
  ∃ res, Read_loop sy lc r = inl res.
Proof.
  revert lc. induction r as [|c r IH]; intros lc; [by eexists|].
  cbn [Read_loop]. case_decide; [by eexists|].
  destruct (IsSpace c) eqn:Hsp; [apply IH|].
  destruct (IsGraphic c); cbn [negb]; [|by eexists].
  destruct (syms c).
  { destruct (ReadToken _ _ r) as [[[tok [e|]] lc2] r2]; by eexists. }
  destruct (_ && _); [|apply IH].
  destruct (ReadToken _ _ (String c r)) as [[[tok [e|]] lc2] r2] eqn:HT; [by eexists|].
  cbn [ReadToken] in HT. rewrite Hsp in HT.
  apply ReadToken_extends in HT as [x ->].
  change ((EmptyString +:+ String c EmptyString) +:+ x) with (String c x).
  destruct (last_is_colon_defined c x) as [b ->]. destruct b; by eexists.
Qed.

Lemma lex_loop_no_panic (fuel : nat) (acc : list Symbol) (d : Diag) (lc : Z) (r : string)
    (p : panic_kind) :
  lex_loop fuel acc d lc r ≠ Panics p.
Proof.
  revert acc d lc r. induction fuel as [|fuel IH]; intros acc d lc r; [done|].
  cbn [lex_loop]. unfold Read.
  destruct (Read_loop_no_panic (mkSymbol (-1) "" 0) lc r) as [[[[s e] lc'] r'] ->].
  repeat case_decide; try done; apply IH.
Qed.

(** X25. The first loop of [Gen] always ends: on any source it returns
    within one round per byte plus one, and [Read] never panics. It ends
    either with a symbol list that closes with its only [Eof] symbol, or,
    once more than eight errors are counted, with what it has collected
    and no [Eof], which makes [Gen] return [invalid file]. *)
Theorem lexing_terminates (fuel : nat) (d : Diag) (lc : Z) (src : string) :
  (String.length src < fuel)%nat →
  ∃ lx b, lex_loop fuel [] d lc src = Returns (lx, b) ∧
    if b then ∃ body e, lx_sym lx = body ++ [e] ∧ Typ e = Eof ∧
                        Forall (λ s, Typ s ≠ Eof) body
    else errc (lx_diag lx) > ErrThreshold ∧ Forall (λ s, Typ s ≠ Eof) (lx_sym lx).
Proof.
  intros Hfuel.
  destruct (lex_loop fuel [] d lc src) as [[lx b]|p|] eqn:H.
  - exists lx, b. split; [done|]. destruct b.
    + by eapply lex_loop_shape.
    + clear Hfuel. assert (Forall (λ s, Typ s ≠ Eof) ([] : list Symbol)) as Hacc by done.
      revert H Hacc. generalize ([] : list Symbol) as acc. revert d lc src.
      induction fuel as [|fuel IH]; intros d lc src acc H Hacc; [done|].
      cbn [lex_loop] in H. destruct (Read lc src) as [[[[s e] lc'] r']|]; [|done].
      case_decide; [by injection H as <-|].
      case_decide as Heof; [done|].
      eapply IH; [done|]. case_decide; [|done].
      apply Forall_app. by split; [|constructor].
  - by apply lex_loop_no_panic in H.
  - by apply lex_loop_total in H.
Qed.

Lemma lexing_terminates_witness :
  ∃ lx body e, lex_loop 12 [] (mkDiag 0 []) 0 ("p %1" +:+ nl +:+ "exit" +:+ nl)
               = Returns (lx, true) ∧ lx_sym lx = body ++ [e] ∧ Typ e = Eof.
Proof.
  destruct (lexing_terminates 12 (mkDiag 0 []) 0 ("p %1" +:+ nl +:+ "exit" +:+ nl))
    as (lx & b & H & Hb); [vm_compute; lia|].
  destruct b; [|by vm_compute in H].
  destruct Hb as (body & e & ? & ? & _). by exists lx, body, e.
Defined.

(** ** [Gen] as a whole *)

Lemma Read_loop_blank (sy : Symbol) (lc : Z) (src : string) :
  blank src = true → ∃ lc', Read_loop sy lc src = inl (set_Typ Eof sy, None, lc', EmptyString).
Proof.
  revert lc. induction src as [|c src IH]; intros lc H; [by eexists|].
  cbn [blank] in H. apply andb_prop in H as [Hc H].
  cbn [Read_loop]. rewrite decide_False by (by apply space_not_hash).
  rewrite Hc. by apply IH.
Qed.

Lemma range_order_empty `{RangeOrder} : range_order (∅ : gmap Z string) = [].
Proof.
  apply Permutation_nil_r. rewrite range_order_perm. by rewrite map_to_list_empty.
Qed.

(** X26. A source without a token, be it empty or made of spaces and
    line feeds only, is assembled without any diagnostic into an object
    that consists of the header alone. *)
Theorem blank_source_gives_header `{RangeOrder} (fuel : nat) (lc : Z) (src : string) :
  blank src = true →
  ∃ lc', Gen (S fuel) lc src ([] : list Z)
         = Returns (mkGenerated [mkSymbol Eof "" 0] None [] Hdr lc').
Proof.
  intros Hsrc.
  destruct (Read_loop_blank (mkSymbol (-1) "" 0) lc src Hsrc) as [lc' HR].
  exists lc'. unfold Gen. cbn [lex_loop]. unfold Read. rewrite HR.
  cbn [set_Typ Typ Val Line errc].
  rewrite (decide_False (P := 0 > ErrThreshold)) by done.
  rewrite (decide_True (P := Eof ≠ -1)) by done.
  rewrite (decide_True (P := Eof = Eof)) by done.
  cbn [lx_sym lx_diag lx_lc app asm_loop].
  unfold Expect, Reader_Read, NewReader. cbn [sym nsym lookup list_lookup].
  rewrite (decide_True (P := Id = Id)) by done.
  rewrite (decide_True (P := Typ _ ≠ Id ∧ Typ _ ≠ Label)) by done.
  rewrite (decide_True (P := Typ _ = Eof)) by done.
  cbn [errc elog].
  rewrite (decide_False (P := 0 > ErrThreshold)) by done.
  rewrite (decide_False (P := 0 > 0)) by done.
  unfold Write, NewWriter. cbn [lab addr buf]. rewrite range_order_empty.
  reflexivity.
Qed.

Lemma blank_source_gives_header_witness :
  ∃ lc', Gen 1 0 (nl +:+ "  " +:+ nl) ([] : list Z)
         = Returns (mkGenerated [mkSymbol Eof "" 0] None [] Hdr lc').
Proof. apply (blank_source_gives_header 0 0 (nl +:+ "  " +:+ nl)). reflexivity. Defined.

Lemma Gen_error_keeps_sink `{RangeOrder} `{IoWriter W}
    (fuel : nat) (lc : Z) (src : string) (f : W) (g : Generated W) :
  Gen fuel lc src f = Returns g → g_err g ≠ None → g_sink g = f.
Proof.
  unfold Gen. intros Hgen Herr.
  destruct (lex_loop fuel [] _ lc src) as [[lx []]|p|]; [| |done..].
  2:{ by injection Hgen as <-. }
  destruct (asm_loop fuel _ NewWriter _) as [[w d]|p|]; [|done..].
  repeat case_decide; try (by injection Hgen as <-).
  destruct (Write w f) as [[[n [m|]] f']|p]; [| |done];
    injection Hgen as <-; by destruct Herr.
Qed.

(** X27. When [Gen] returns an error it has written nothing: the sink
    is the one it was given, whatever kind of sink it is. *)
Theorem Gen_error_writes_nothing `{RangeOrder} `{IoWriter W}
    (fuel : nat) (lc : Z) (src : string) (f : W) (g : Generated W) :
  Gen fuel lc src f = Returns g → g_err g ≠ None → g_sink g = f.
Proof. apply Gen_error_keeps_sink. Qed.

Lemma Gen_error_writes_nothing_witness :
  ∃ g, Gen 10 0 (lines ["frob %1"%string]) [1; 2; 3] = Returns g ∧ g_sink g = [1; 2; 3].
Proof.
  assert (∃ g, Gen 10 0 (lines ["frob %1"%string]) [1; 2; 3] = Returns g ∧ g_err g ≠ None)
    as (g & Hg & Herr) by (eexists; split; [vm_compute; reflexivity|done]).
  exists g. split; [done|]. by apply (Gen_error_writes_nothing 10 0 _ _ g Hg).
Defined.



Lemma Gen_error_summary_witness :
  ∃ g : Generated (list Z),
    Gen 10 0 (lines ["frob %1"%string]) [] = Returns g ∧
    (g_err g = None
     ∨ (g_err g = Some "invalid file"%string ∧ length (g_elog g) = 9%nat)
     ∨ (∃ n, 0 < n ≤ 8 ∧ g_err g = Some (dec n +:+ " errors") ∧
             Z.of_nat (length (g_elog g)) = n)
     ∨ (∃ n, 8 < n ∧ g_err g = Some (dec n +:+ " errors (" +:+ dec 8 +:+ " shown)") ∧
             length (g_elog g) = 9%nat)).
Proof.
  assert (∃ g, Gen 10 0 (lines ["frob %1"%string]) ([] : list Z) = Returns g) as [g Hg]
    by (eexists; vm_compute; reflexivity).
  exists g. split; [done|]. exact (Gen_error_summary 10 0 _ [] g Hg).
Defined.

End AssemblerProperties.
